(** * spartan-tpms: implicit TPMS fields, calibration curves and box composition

    Shallow embedding of [spartantpms/tpms/gyroid.py], [tpms/diamond.py],
    [tpms/euler.py], [optimization_functions.py] and
    [stl/marching_cubes.py].

    Modelling choices:
    - scalar parameters (wavelengths, angles, porosity, isovalues,
      thicknesses, calibration tables) are rationals [Q]: every Python float
      is a dyadic rational, and the decimal literals of the tables are exact
      as [Q] literals; the arithmetic on them is exact;
    - points and field values are reals [R], and [np.sin]/[np.cos] are the
      real [sin]/[cos];
    - a Python call that may raise returns [result A]: [Ok v], or [Err e]
      with the exception class;
    - an [sdf3]-decorated function returns an [SDF3] object, a function
      from points to values; a batch of points is evaluated row by row
      ([np] operations here are all row-wise). *)

From Stdlib Require Import ZArith QArith Qminmax Lqa List Lia Bool.
From Stdlib Require Import Reals Lra Qreals.
From Stdlib Require String.
Import ListNotations.

(** ** Python exceptions and the error monad *)

Inductive exn := ValueError | TypeError | IndexError.

Inductive result (A : Type) : Type :=
| Ok (a : A)
| Err (e : exn).
Arguments Ok {A} a.
Arguments Err {A} e.

Definition bind {A B} (m : result A) (k : A -> result B) : result B :=
  match m with Ok a => k a | Err e => Err e end.

Notation "x <- m ;; k" := (bind m (fun x => k))
  (at level 61, m at next level, right associativity).

Definition is_err {A} (m : result A) : bool :=
  match m with Ok _ => false | Err _ => true end.

(** ** Calibration: numeric utilities on [Q] *)

Module Calib.

Local Open Scope Q_scope.

Definition Qltb (a b : Q) : bool := negb (Qle_bool b a).

(** [np.polyval(p, x)]: Horner's rule, highest degree first. *)
Definition np_polyval (p : list Q) (x : Q) : Q :=
  fold_left (fun acc c => acc * x + c) p 0.

(** [np.interp(x, xp, fp)]: piecewise-linear interpolation, clamped to
    [fp[0]] left of [xp[0]] and to [fp[-1]] right of [xp[-1]].  On the
    segment [xp[i] <= x < xp[i+1]] the value is
    [fp[i] + (x - xp[i]) * (fp[i+1] - fp[i]) / (xp[i+1] - xp[i])].
    NumPy raises [ValueError] on empty or mismatched tables. *)
Fixpoint interp_from (x x0 y0 : Q) (rest : list (Q * Q)) : Q :=
  match rest with
  | [] => y0
  | (x1, y1) :: rest' =>
      if Qltb x x1 then y0 + (x - x0) * ((y1 - y0) / (x1 - x0))
      else interp_from x x1 y1 rest'
  end.

Definition np_interp (x : Q) (xp fp : list Q) : result Q :=
  if negb (Nat.eqb (length xp) (length fp)) then Err ValueError else
  match combine xp fp with
  | [] => Err ValueError
  | (x0, y0) :: rest =>
      if Qle_bool x x0 then Ok y0 else Ok (interp_from x x0 y0 rest)
  end.

(** [gyroid.py]: coefficients of the 9th-degree calibration polynomial,
    highest degree first, as passed to [np.polyval]. *)
Definition polynomial_constants : list Q := [
  -9.86328589e02; 4.43858792e03; -8.42057860e03; 8.75829993e03;
  -5.43754382e03; 2.05512365e03; -4.60683827e02; 5.58905464e01;
  -5.79899099e00; 1.51588868e00].

(** [gyroid.py: _gyroid_porosity_to_t_value]. *)
Definition _gyroid_porosity_to_t_value (porosity : Q) : result Q :=
  if Qltb porosity 0 || Qltb 1 porosity then Err ValueError
  else Ok (np_polyval polynomial_constants porosity).

(** [diamond.py]: [POROSITY = [...][::-1]]. *)
Definition POROSITY : list Q := rev [
  1.0; 0.99726682; 0.99099292; 0.98260702; 0.97316512; 0.96080369;
  0.94682719; 0.92794339; 0.90347675; 0.879938; 0.85341759; 0.82876072;
  0.80354479; 0.77733497; 0.75664976; 0.72975664; 0.70963049; 0.68292373;
  0.66391569; 0.63714681; 0.61627524; 0.59105931; 0.57000139; 0.54348098;
  0.52335483; 0.5022804; 0.47664517; 0.45651902; 0.42999861; 0.40894069;
  0.38372476; 0.36285319; 0.33608431; 0.31707627; 0.29036951; 0.27024336;
  0.24335024; 0.22266503; 0.19645521; 0.17123928; 0.14658241; 0.120062;
  0.09652325; 0.07205661; 0.05317281; 0.03919631; 0.02683488; 0.01739298;
  0.00900708; 0.00273318; 0.0].

(** [diamond.py]: [DIAMOND_T_VALUE = [...][::-1]]. *)
Definition DIAMOND_T_VALUE : list Q := rev [
  -1.41421356; -1.35764502; -1.30107648; -1.24450793; -1.18793939;
  -1.13137085; -1.07480231; -1.01823376; -0.96166522; -0.90509668;
  -0.84852814; -0.79195959; -0.73539105; -0.67882251; -0.62225397;
  -0.56568542; -0.50911688; -0.45254834; -0.3959798; -0.33941125;
  -0.28284271; -0.22627417; -0.16970563; -0.11313708; -0.05656854; 0.0;
  0.05656854; 0.11313708; 0.16970563; 0.22627417; 0.28284271; 0.33941125;
  0.3959798; 0.45254834; 0.50911688; 0.56568542; 0.62225397; 0.67882251;
  0.73539105; 0.79195959; 0.84852814; 0.90509668; 0.96166522; 1.01823376;
  1.07480231; 1.13137085; 1.18793939; 1.24450793; 1.30107648; 1.35764502;
  1.41421356].

(** [diamond.py: _diamond_porosity_to_t_value]. *)
Definition _diamond_porosity_to_t_value (porosity : Q) : result Q :=
  np_interp porosity POROSITY DIAMOND_T_VALUE.

(** [gyroid.py: _sheet_thickness_to_t_value]: the two local tables. *)
Definition thickness_normalized : list Q := [
  0.004; 0.012; 0.02; 0.028; 0.04; 0.048; 0.056; 0.064; 0.076; 0.084;
  0.092; 0.104; 0.112; 0.12; 0.132; 0.14; 0.152; 0.16; 0.172; 0.184; 0.192;
  0.204; 0.216; 0.228; 0.24; 0.252; 0.264; 0.276; 0.292; 0.308; 0.324;
  0.34; 0.36; 0.384; 0.412; 0.452; 0.52878729; 0.55713553; 0.58060658;
  0.60113226; 0.62096699; 0.64089937; 0.66020603; 0.67976467; 0.69945121;
  0.71929966; 0.74095074; 0.76459663; 0.79095891; 0.82341727; 0.8830855].

Definition isovalues : list Q := [
  1.000000e-04; 5.659800e-02; 1.130960e-01; 1.695940e-01; 2.260920e-01;
  2.825900e-01; 3.390880e-01; 3.955860e-01; 4.520840e-01; 5.085820e-01;
  5.650800e-01; 6.215780e-01; 6.780760e-01; 7.345740e-01; 7.910720e-01;
  8.475700e-01; 9.040680e-01; 9.605660e-01; 1.017064e00; 1.073562e00;
  1.130060e00; 1.186558e00; 1.243056e00; 1.299554e00; 1.356052e00;
  1.412550e00; 1.469048e00; 1.525546e00; 1.582044e00; 1.638542e00;
  1.695040e00; 1.751538e00; 1.808036e00; 1.864534e00; 1.921032e00;
  1.977530e00; 2.034028e00; 2.090526e00; 2.147024e00; 2.203522e00;
  2.260020e00; 2.316518e00; 2.373016e00; 2.429514e00; 2.486012e00;
  2.542510e00; 2.599008e00; 2.655506e00; 2.712004e00; 2.768502e00;
  2.825000e00].

Definition _sheet_thickness_to_t_value (thickness lambda_xyz : Q) : result Q :=
  let t_norm := thickness / lambda_xyz in
  if Qle_bool t_norm 0 || Qle_bool 0.88 t_norm then Err ValueError
  else np_interp t_norm thickness_normalized isovalues.

End Calib.

(** ** Rotation matrices ([tpms/euler.py]) *)

Module Euler.

Local Open Scope R_scope.

(** A point, or a row of a point batch. *)
Definition vec3 : Type := (R * R * R)%type.

(** A 3x3 [np.array], row by row. *)
Record mat3 : Type := Mat3 {
  m00 : R; m01 : R; m02 : R;
  m10 : R; m11 : R; m12 : R;
  m20 : R; m21 : R; m22 : R }.

(** [A @ B] for 3x3 arrays. *)
Definition matmul (A B : mat3) : mat3 :=
  Mat3
    (m00 A * m00 B + m01 A * m10 B + m02 A * m20 B)
    (m00 A * m01 B + m01 A * m11 B + m02 A * m21 B)
    (m00 A * m02 B + m01 A * m12 B + m02 A * m22 B)
    (m10 A * m00 B + m11 A * m10 B + m12 A * m20 B)
    (m10 A * m01 B + m11 A * m11 B + m12 A * m21 B)
    (m10 A * m02 B + m11 A * m12 B + m12 A * m22 B)
    (m20 A * m00 B + m21 A * m10 B + m22 A * m20 B)
    (m20 A * m01 B + m21 A * m11 B + m22 A * m21 B)
    (m20 A * m02 B + m21 A * m12 B + m22 A * m22 B).

(** [p @ M] for one row [p] of a point batch. *)
Definition row_matmul (p : vec3) (M : mat3) : vec3 :=
  let '(x, y, z) := p in
  (x * m00 M + y * m10 M + z * m20 M,
   x * m01 M + y * m11 M + z * m21 M,
   x * m02 M + y * m12 M + z * m22 M).

(** [np.deg2rad]. *)
Definition deg2rad (theta : R) : R := theta * (PI / 180).

Definition rotate_about_x (theta : R) (degrees : bool) : mat3 :=
  let theta := if degrees then deg2rad theta else theta in
  Mat3 1 0 0
       0 (cos theta) (- sin theta)
       0 (sin theta) (cos theta).

Definition rotate_about_y (theta : R) (degrees : bool) : mat3 :=
  let theta := if degrees then deg2rad theta else theta in
  Mat3 (cos theta) 0 (sin theta)
       0 1 0
       (- sin theta) 0 (cos theta).

Definition rotate_about_z (theta : R) (degrees : bool) : mat3 :=
  let theta := if degrees then deg2rad theta else theta in
  Mat3 (cos theta) (- sin theta) 0
       (sin theta) (cos theta) 0
       0 0 1.

(** [rotate_about_xyz]: [Rx @ Ry @ Rz], evaluated left to right as
    Python does. *)
Definition rotate_about_xyz (theta_x theta_y theta_z : R) (degrees : bool)
  : mat3 :=
  let theta_x := if degrees then deg2rad theta_x else theta_x in
  let theta_y := if degrees then deg2rad theta_y else theta_y in
  let theta_z := if degrees then deg2rad theta_z else theta_z in
  matmul (matmul (rotate_about_x theta_x false) (rotate_about_y theta_y false))
         (rotate_about_z theta_z false).

End Euler.

(** ** Implicit fields ([tpms/gyroid.py], [tpms/diamond.py]) *)

Module Fields.

Import Euler.
Local Open Scope R_scope.

(** An [SDF3] object: a map from a point to its field value.  [SDF3]
    evaluates a batch of points row by row. *)
Definition sdf3 : Type := vec3 -> R.

Definition eval_batch (f : sdf3) (P : list vec3) : list R := map f P.

(** Operators of the [sdf] library on [SDF3] objects (with no smoothing
    radius [k]): [a & b] is [intersection(a, b)], the pointwise maximum,
    and [a - b] is [difference(a, b)], [max(a(p), -b(p))]. *)
Definition sdf_intersection (a b : sdf3) : sdf3 := fun p => Rmax (a p) (b p).

Definition sdf_difference (a b : sdf3) : sdf3 := fun p => Rmax (a p) (- b p).

(** [p * np.array([2*np.pi/lambda for lambda in ...])], row-wise. *)
Definition scale_by_wavelength (lambda_x lambda_y lambda_z : Q) (p : vec3)
  : vec3 :=
  let '(x, y, z) := p in
  (x * (2 * PI / Q2R lambda_x), y * (2 * PI / Q2R lambda_y),
   z * (2 * PI / Q2R lambda_z)).

(** [gyroid.py: gyroid_function]; [isovalue = None] is [None]. *)
Definition gyroid_function (lambda_x lambda_y lambda_z theta_x theta_y theta_z
    porosity : Q) (isovalue : option Q) : result sdf3 :=
  t <- (match isovalue with
        | None => Calib._gyroid_porosity_to_t_value porosity
        | Some v =>
            if negb (Qeq_bool porosity 0.5) then Err ValueError else Ok v
        end) ;;
  Ok (fun p =>
        let p := scale_by_wavelength lambda_x lambda_y lambda_z p in
        let p := row_matmul p (rotate_about_xyz (Q2R theta_x) (Q2R theta_y)
                                 (Q2R theta_z) true) in
        let '(x, y, z) := p in
        cos x * sin y + cos y * sin z + cos z * sin x - Q2R t).

(** [diamond.py: diamond_function]. *)
Definition diamond_function (lambda_x lambda_y lambda_z porosity : Q)
  : result sdf3 :=
  t <- Calib._diamond_porosity_to_t_value porosity ;;
  Ok (fun p =>
        let '(px, py, pz) := p in
        let x := 2 * PI / Q2R lambda_x * px in
        let y := 2 * PI / Q2R lambda_y * py in
        let z := 2 * PI / Q2R lambda_z * pz in
        sin x * sin y * sin z + sin x * cos y * cos z
        + cos x * sin y * cos z + cos x * cos y * sin z - Q2R t).

Inductive warning := AnisotropyWarning.

(** [porosity != 0.5] for an [Optional[float]] (None differs from 0.5). *)
Definition porosity_not_default (porosity : option Q) : bool :=
  match porosity with
  | None => true
  | Some q => negb (Qeq_bool q 0.5)
  end.

(** [lambda_x != lambda_y or lambda_x != lambda_z or lambda_y != lambda_z]. *)
Definition anisotropic (lambda_x lambda_y lambda_z : Q) : bool :=
  negb (Qeq_bool lambda_x lambda_y) || negb (Qeq_bool lambda_x lambda_z)
  || negb (Qeq_bool lambda_y lambda_z).

(** [np.mean([lambda_x, lambda_y, lambda_z])]. *)
Definition mean3 (a b c : Q) : Q := ((a + b + c) / 3)%Q.

(** [gyroid.py: sheet_gyroid_function]: the warnings it emits, and its
    result.  The isovalue/thickness branch first resolves the isovalue, then
    checks it and the porosity, then builds the two gyroids. *)
Definition sheet_gyroid_function (lambda_x lambda_y lambda_z theta_x theta_y
    theta_z : Q) (porosity isovalue sheet_thickness : option Q)
  : list warning * result sdf3 :=
  match isovalue, sheet_thickness with
  | None, None =>
      ([], match porosity with
           | None => Err TypeError
           | Some por =>
               let d_porosity := ((1 - por) / 2)%Q in
               f_inner <- gyroid_function lambda_x lambda_y lambda_z theta_x
                            theta_y theta_z (0.5 + d_porosity) None ;;
               f_outer <- gyroid_function lambda_x lambda_y lambda_z theta_x
                            theta_y theta_z (0.5 - d_porosity) None ;;
               Ok (sdf_difference f_outer f_inner)
           end)
  | _, _ =>
      let '(ws, iso) :=
        match sheet_thickness, isovalue with
        | Some _, Some _ => ([], Err ValueError)
        | Some th, None =>
            (if anisotropic lambda_x lambda_y lambda_z
             then [AnisotropyWarning] else [],
             Calib._sheet_thickness_to_t_value th
               (mean3 lambda_x lambda_y lambda_z))
        | None, Some v => ([], Ok v)
        | None, None => ([], Err TypeError)
        end in
      (ws,
       v <- iso ;;
       if Qle_bool v 0 then Err ValueError else
       if porosity_not_default porosity then Err ValueError else
       let d_t := (v / 2)%Q in
       f_inner <- gyroid_function lambda_x lambda_y lambda_z theta_x theta_y
                    theta_z 0.5 (Some (- d_t)%Q) ;;
       f_outer <- gyroid_function lambda_x lambda_y lambda_z theta_x theta_y
                    theta_z 0.5 (Some d_t) ;;
       Ok (sdf_difference f_outer f_inner))
  end.

End Fields.

(** ** Domain composition ([optimization_functions.py]) *)

Module Boxes.

Import Euler Fields.
Import String.
Local Open Scope string_scope.
Local Open Scope R_scope.

(** The values [n_periods] can take: a Python [int], a [tuple] or a [list]
    of numbers, a [float], or [None]. *)
Inductive n_periods_val : Type :=
| NInt (n : Z)
| NTuple (l : list Q)
| NList (l : list Q)
| NFloat (q : Q)
| NNone.

(** The prologue shared by the three [*_box] functions:
    [if isinstance(n_periods, int): ... elif isinstance(n_periods, tuple): ...]. *)
Definition normalize_n_periods (n : n_periods_val) : result n_periods_val :=
  match n with
  | NInt k => Ok (NTuple [inject_Z k; inject_Z k; inject_Z k])
  | NTuple l => if Nat.eqb (List.length l) 3 then Ok n else Err ValueError
  | _ => Ok n
  end.

(** [n_periods[i]]. *)
Definition getitem (n : n_periods_val) (i : nat) : result Q :=
  match n with
  | NTuple l | NList l =>
      match nth_error l i with Some v => Ok v | None => Err IndexError end
  | _ => Err TypeError
  end.

(** Binding keyword arguments to a Python signature: an unexpected keyword,
    or a missing required parameter, is a [TypeError]. *)
Definition mem (s : string) (l : list string) : bool := existsb (String.eqb s) l.

Definition bind_kwargs (params required kwargs : list string) : result unit :=
  if forallb (fun k => mem k params) kwargs && forallb (fun r => mem r kwargs) required
  then Ok tt else Err TypeError.

Definition gyroid_function_params : list string :=
  ["lambda_x"; "lambda_y"; "lambda_z"; "theta_x"; "theta_y"; "theta_z";
   "porosity"; "isovalue"].

Definition sheet_gyroid_function_params : list string :=
  ["lambda_x"; "lambda_y"; "lambda_z"; "theta_x"; "theta_y"; "theta_z";
   "porosity"; "isovalue"; "sheet_thickness"].

Definition diamond_function_params : list string :=
  ["lambda_x"; "lambda_y"; "lambda_z"; "porosity"].

Definition required_lambdas : list string := ["lambda_x"; "lambda_y"; "lambda_z"].

(** The keywords every [*_box] function passes to its field constructor. *)
Definition box_kwargs : list string :=
  ["lambda_x"; "lambda_y"; "lambda_z"; "theta_x"; "theta_y"; "theta_z";
   "porosity"].

(** [sdf.box(size)] centred at the origin:
    [q = |p| - size/2; |max(q, 0)| + min(max_i q_i, 0)]. *)
Definition sdf_box (size : vec3) : sdf3 := fun p =>
  let '(px, py, pz) := p in
  let '(sx, sy, sz) := size in
  let qx := Rabs px - sx / 2 in
  let qy := Rabs py - sy / 2 in
  let qz := Rabs pz - sz / 2 in
  sqrt (Rmax qx 0 * Rmax qx 0 + Rmax qy 0 * Rmax qy 0 + Rmax qz 0 * Rmax qz 0)
  + Rmin (Rmax qx (Rmax qy qz)) 0.

(** [dx, dy, dz = lambda_x * n_periods[0], ...]. *)
Definition box_extents (lambda_x lambda_y lambda_z : Q) (n_periods : n_periods_val)
  : result vec3 :=
  n <- normalize_n_periods n_periods ;;
  n0 <- getitem n 0 ;;
  n1 <- getitem n 1 ;;
  n2 <- getitem n 2 ;;
  Ok (Q2R (lambda_x * n0), Q2R (lambda_y * n1), Q2R (lambda_z * n2)).

Definition gyroid_box (lambda_x lambda_y lambda_z theta_x theta_y theta_z
    porosity : Q) (n_periods : n_periods_val) : result sdf3 :=
  size <- box_extents lambda_x lambda_y lambda_z n_periods ;;
  _ <- bind_kwargs gyroid_function_params required_lambdas box_kwargs ;;
  infill <- gyroid_function lambda_x lambda_y lambda_z theta_x theta_y theta_z
              porosity None ;;
  Ok (sdf_intersection (sdf_box size) infill).

Definition diamond_box (lambda_x lambda_y lambda_z theta_x theta_y theta_z
    porosity : Q) (n_periods : n_periods_val) : result sdf3 :=
  size <- box_extents lambda_x lambda_y lambda_z n_periods ;;
  _ <- bind_kwargs diamond_function_params required_lambdas box_kwargs ;;
  infill <- diamond_function lambda_x lambda_y lambda_z porosity ;;
  Ok (sdf_intersection (sdf_box size) infill).

Definition sheet_gyroid_box (lambda_x lambda_y lambda_z theta_x theta_y theta_z
    porosity : Q) (n_periods : n_periods_val) : result sdf3 :=
  size <- box_extents lambda_x lambda_y lambda_z n_periods ;;
  _ <- bind_kwargs sheet_gyroid_function_params required_lambdas box_kwargs ;;
  infill <- snd (sheet_gyroid_function lambda_x lambda_y lambda_z theta_x theta_y
                   theta_z (Some porosity) None None) ;;
  Ok (sdf_intersection (sdf_box size) infill).

End Boxes.

(** ** Command-line entry point ([tpmsgenerator.py]) *)

Module Cli.

Import Fields Boxes.
Import String.
Local Open Scope string_scope.

(** The parsed [argparse] namespace; an option left out is [None]. *)
Record cli_args : Type := CliArgs {
  filename : string;
  tpms : string;
  lambda_x : Q; lambda_y : Q; lambda_z : Q;
  theta_x : Q; theta_y : Q; theta_z : Q;
  porosity : Q;
  step_size : Q;
  num_periods : Z;
  num_x_periods : option Z;
  num_y_periods : option Z;
  num_z_periods : option Z }.

(** Python truthiness of an [Optional[int]]: [None] and [0] are falsy. *)
Definition truthy (o : option Z) : bool :=
  match o with None => false | Some k => negb (Z.eqb k 0) end.

Definition box_function : Type :=
  Q -> Q -> Q -> Q -> Q -> Q -> Q -> n_periods_val -> result sdf3.

(** [if args.tpms == "gyroid": ... else: raise ValueError]. *)
Definition select_tpms (name : string) : result box_function :=
  if String.eqb name "gyroid" then Ok gyroid_box
  else if String.eqb name "diamond" then Ok diamond_box
  else if String.eqb name "sheet_gyroid" then Ok sheet_gyroid_box
  else Err ValueError.

(** [if val < 0: raise ValueError]. *)
Definition check_lambda (v : Q) : result unit :=
  if Calib.Qltb v 0 then Err ValueError else Ok tt.

(** [if val < 0 or val > 90: raise ValueError]. *)
Definition check_theta (v : Q) : result unit :=
  if Calib.Qltb v 0 || Calib.Qltb 90 v then Err ValueError else Ok tt.

(** [if args.porosity < 0 or args.porosity > 1: raise ValueError]. *)
Definition check_porosity (v : Q) : result unit :=
  if Calib.Qltb v 0 || Calib.Qltb 1 v then Err ValueError else Ok tt.

(** The [num_periods] tuple: [any([...])], then [all([...])] and the
    [num_periods != 4] check.  When all three are truthy they are all
    given, so the last [match] always takes its first branch. *)
Definition cli_num_periods (a : cli_args) : result (list Z) :=
  let ns := [num_x_periods a; num_y_periods a; num_z_periods a] in
  if existsb truthy ns then
    if negb (forallb truthy ns) then Err ValueError
    else if negb (Z.eqb (num_periods a) 4) then Err ValueError
    else match ns with
         | [Some nx; Some ny; Some nz] => Ok [nx; ny; nz]
         | _ => Err TypeError
         end
  else Ok [num_periods a; num_periods a; num_periods a].

(** The body of [if __name__ == "__main__":] up to the [SDF3] handed to
    [generate_stl]. *)
Definition cli_main (a : cli_args) : result sdf3 :=
  tpms_function <- select_tpms (tpms a) ;;
  _ <- check_lambda (lambda_x a) ;;
  _ <- check_lambda (lambda_y a) ;;
  _ <- check_lambda (lambda_z a) ;;
  _ <- check_theta (theta_x a) ;;
  _ <- check_theta (theta_y a) ;;
  _ <- check_theta (theta_z a) ;;
  _ <- check_porosity (porosity a) ;;
  n <- cli_num_periods a ;;
  tpms_function (lambda_x a) (lambda_y a) (lambda_z a) (theta_x a)
    (theta_y a) (theta_z a) (porosity a) (NTuple (map inject_Z n)).

End Cli.

(** ** Grid sampling ([stl/marching_cubes.py]) *)

Module Mesh.

Local Open Scope R_scope.

Section Sampling.

Variable A : Type.

(** [sdf.mesh._cartesian_product(X, Y, Z)]: the rows of an
    [(len X, len Y, len Z, 3)] array in C order (last axis fastest). *)
Definition cartesian_product (X Y Z : list A) : list (A * A * A) :=
  flat_map (fun x => flat_map (fun y => map (fun z => (x, y, z)) Z) Y) X.

(** [a.reshape((nx, ny, nz))] in C order, as an index function. *)
Definition reshape_C (ny nz : nat) (l : list R) : nat -> nat -> nat -> R :=
  fun i j k => nth (i * (ny * nz) + j * nz + k) l 0.

(** [a.reshape(-1, order="F")]: first index fastest. *)
Definition ravel_F (nx ny nz : nat) (a : nat -> nat -> nat -> R) : list R :=
  flat_map (fun k => flat_map (fun j => map (fun i => a i j k) (seq 0 nx))
                       (seq 0 ny)) (seq 0 nz).

(** The scalar array handed to [PyScaffolder.marching_cubes]:
    [Fxyz = -f(P)], reshaped to [(len X, len Y, len Z)], flattened in
    Fortran order. *)
Definition extractor_input (f : A * A * A -> R) (X Y Z : list A) : list R :=
  let P := cartesian_product X Y Z in
  let Fxyz := map (fun p => - f p) P in
  ravel_F (length X) (length Y) (length Z)
    (reshape_C (length Y) (length Z) Fxyz).

End Sampling.

Arguments cartesian_product {A} X Y Z.
Arguments extractor_input {A} f X Y Z.

End Mesh.

(** ** Auxiliary notions for stating properties of the matrices and
    fields (not part of the code) *)

Module Linalg.

Import Euler.
Local Open Scope R_scope.

Definition transpose (A : mat3) : mat3 :=
  Mat3 (m00 A) (m10 A) (m20 A)
       (m01 A) (m11 A) (m21 A)
       (m02 A) (m12 A) (m22 A).

Definition mat_id : mat3 := Mat3 1 0 0 0 1 0 0 0 1.

Definition det3 (A : mat3) : R :=
  m00 A * (m11 A * m22 A - m12 A * m21 A)
  - m01 A * (m10 A * m22 A - m12 A * m20 A)
  + m02 A * (m10 A * m21 A - m11 A * m20 A).

(** Squared Euclidean length of a point. *)
Definition norm2 (p : vec3) : R :=
  let '(x, y, z) := p in x * x + y * y + z * z.

Definition neg3 (p : vec3) : vec3 :=
  let '(x, y, z) := p in (- x, - y, - z).

(** The expression [gyroid_function]'s [f] evaluates on the scaled,
    rotated coordinates, before subtracting [t]. *)
Definition gyroid_expr (q : vec3) : R :=
  let '(x, y, z) := q in cos x * sin y + cos y * sin z + cos z * sin x.

(** [A] is orthogonal: [A^T A = A A^T = I]. *)
Definition orthogonal (A : mat3) : Prop :=
  matmul (transpose A) A = mat_id /\ matmul A (transpose A) = mat_id.

End Linalg.

(** ** Certificates for the calibration curves *)

Module Cert.

Import Calib.
Local Open Scope Q_scope.

(** Coefficient lists, lowest degree first, evaluated by Horner's rule. *)
Definition peval (p : list Q) (x : Q) : Q :=
  fold_right (fun c acc => c + x * acc) 0 p.

Fixpoint padd (p q : list Q) : list Q :=
  match p, q with
  | [], _ => q
  | _, [] => p
  | a :: p', b :: q' => (a + b) :: padd p' q'
  end.

Definition pscale (a : Q) (p : list Q) : list Q := map (Qmult a) p.

(** Taylor shift: the coefficients of [t |-> p(a + t)]. *)
Fixpoint shift (p : list Q) (a : Q) : list Q :=
  match p with
  | [] => []
  | c :: p' =>
      let q := shift p' a in
      map Qred (padd [c] (padd (pscale a q) (0 :: q)))
  end.

(** An upper bound of [peval p] on [[0, h]]. *)
Fixpoint ubound (p : list Q) (h : Q) : Q :=
  match p with
  | [] => 0
  | e :: r => Qred (e + Qmax 0 (h * ubound r h))
  end.

(** A bound [L] with [p(t) - p(s) <= (t - s) * L] for [0 <= s <= t <= h]. *)
Fixpoint slope_bound (p : list Q) (h : Q) : Q :=
  match p with
  | [] => 0
  | e :: r => Qred (h * Qmax (slope_bound r h) 0 + ubound r h)
  end.

(** The gyroid polynomial, lowest degree first. *)
Definition gyroid_coeffs : list Q := rev polynomial_constants.

(** [[0, 1]] cut into 50 segments [[i/50, (i+1)/50]]. *)
Definition seg_start (i : nat) : Q := inject_Z (Z.of_nat i) / 50.

Definition seg_check (p : list Q) (a h : Q) : bool :=
  Qle_bool (slope_bound (shift p a) h) 0.

Definition gyroid_certificate : bool :=
  forallb (fun i => seg_check gyroid_coeffs (seg_start i) (1 / 50)) (seq 0 50).

(** Consecutive table entries: abscissae strictly increasing, ordinates
    non-increasing. *)
Fixpoint decreasing_table (x0 y0 : Q) (rest : list (Q * Q)) : bool :=
  match rest with
  | [] => true
  | (x1, y1) :: rest' =>
      Qltb x0 x1 && Qle_bool y1 y0 && decreasing_table x1 y1 rest'
  end.

Definition diamond_table_decreasing : bool :=
  match combine POROSITY DIAMOND_T_VALUE with
  | [] => false
  | (x0, y0) :: rest => decreasing_table x0 y0 rest
  end.

(** The strict variant: a negative slope bound on every segment. *)
Definition seg_check_strict (p : list Q) (a h : Q) : bool :=
  Qltb (slope_bound (shift p a) h) 0.

Definition gyroid_strict_certificate : bool :=
  forallb (fun i => seg_check_strict gyroid_coeffs (seg_start i) (1 / 50))
    (seq 0 50).

(** The sheet-thickness table with its ordinates negated: it is
    [decreasing_table] exactly when the original table is increasing. *)
Definition neg_snd (xy : Q * Q) : Q * Q := (fst xy, - snd xy).

End Cert.

(** ** Spec-side definitions, compared with the embedded code below *)

Module Spec.

Import Euler Fields.
Local Open Scope R_scope.

(** The spec's degree-to-radian conversion. *)
Definition radians (deg : R) : R := deg * PI / 180.

(** The spec's single-axis rotation matrices, at an angle in radians. *)
Definition Rx (a : R) : mat3 :=
  Mat3 1 0 0  0 (cos a) (- sin a)  0 (sin a) (cos a).

Definition Ry (a : R) : mat3 :=
  Mat3 (cos a) 0 (sin a)  0 1 0  (- sin a) 0 (cos a).

Definition Rz (a : R) : mat3 :=
  Mat3 (cos a) (- sin a) 0  (sin a) (cos a) 0  0 0 1.

(** The spec's composed rotation [Rx . Ry . Rz] of angles in degrees. *)
Definition compose_rotation (tx ty tz : R) : mat3 :=
  matmul (Rx (radians tx)) (matmul (Ry (radians ty)) (Rz (radians tz))).

(** The spec's gyroid: scale by [2 pi / lambda], then [P' = P . R]. *)
Definition gyroid_spec (lx ly lz tx ty tz : Q) (t : R) : sdf3 := fun p =>
  let '(x, y, z) := row_matmul (scale_by_wavelength lx ly lz p)
                      (compose_rotation (Q2R tx) (Q2R ty) (Q2R tz)) in
  cos x * sin y + cos y * sin z + cos z * sin x - t.

(** The diamond expression of the spec and of [diamond.py]. *)
Definition diamond_expr (x y z : R) : R :=
  sin x * sin y * sin z + sin x * cos y * cos z
  + cos x * sin y * cos z + cos x * cos y * sin z.

(** The spec's diamond: the gyroid's preprocessing (scale, then rotate
    by the angles), then [diamond_expr - t]. *)
Definition diamond_spec_rotated (lx ly lz tx ty tz : Q) (t : R) : sdf3 :=
  fun p =>
  let '(x, y, z) := row_matmul (scale_by_wavelength lx ly lz p)
                      (compose_rotation (Q2R tx) (Q2R ty) (Q2R tz)) in
  diamond_expr x y z - t.

End Spec.

(** * Properties *)

Module CalibFacts.

Import Calib.
Local Open Scope Q_scope.

Lemma Qltb_iff a b : Qltb a b = true <-> a < b.
Proof.
  unfold Qltb. rewrite negb_true_iff. split.
  - intro H. apply Qnot_le_lt. intro H'. apply Qle_bool_iff in H'. congruence.
  - intro H. destruct (Qle_bool b a) eqn:E; [|reflexivity].
    apply Qle_bool_iff in E. exfalso. apply (Qlt_not_le _ _ H E).
Qed.

Lemma Qltb_false a b : Qltb a b = false <-> b <= a.
Proof.
  unfold Qltb. rewrite negb_false_iff. apply Qle_bool_iff.
Qed.


(** Every error of [_sheet_thickness_to_t_value] is a [ValueError]. *)
Lemma sheet_thickness_err th l e :
  _sheet_thickness_to_t_value th l = Err e -> e = ValueError.
Proof.
  unfold _sheet_thickness_to_t_value.
  destruct (_ || _).
  - congruence.
  - unfold np_interp. simpl. destruct (Qle_bool _ _); congruence.
Qed.

Lemma Qle_bool_false a b : Qle_bool a b = false <-> ~ a <= b.
Proof.
  split.
  - intros H H'. apply Qle_bool_iff in H'. congruence.
  - intro H. destruct (Qle_bool a b) eqn:E; [|reflexivity].
    exfalso. apply H. apply Qle_bool_iff. exact E.
Qed.

(** [np.interp] on the sheet-gyroid table never raises. *)
Lemma sheet_table_interp_ok x :
  is_err (np_interp x thickness_normalized isovalues) = false.
Proof.
  unfold np_interp. simpl. destruct (Qle_bool x _); reflexivity.
Qed.

(** C3: [_diamond_porosity_to_t_value] has no range check: [np.interp]
    clamps porosity 1.2 to the table's last isovalue and -0.2 to its first,
    and [diamond_function] builds a field from porosity 1.2, while the
    sibling [_gyroid_porosity_to_t_value] raises [ValueError] there. *)
Theorem diamond_porosity_out_of_range_clamped :
  _diamond_porosity_to_t_value 1.2 = Ok (-1.41421356) /\
  _diamond_porosity_to_t_value (-0.2) = Ok 1.41421356 /\
  _gyroid_porosity_to_t_value 1.2 = Err ValueError /\
  _gyroid_porosity_to_t_value (-0.2) = Err ValueError /\
  is_err (Fields.diamond_function 1 1 1 1.2) = false.
Proof.
  repeat split; vm_compute; reflexivity.
Qed.

(** The gyroid calibrator raises exactly outside [0, 1]. *)
Lemma gyroid_porosity_range p :
  (_gyroid_porosity_to_t_value p = Err ValueError <-> p < 0 \/ 1 < p) /\
  (0 <= p <= 1 ->
   _gyroid_porosity_to_t_value p = Ok (np_polyval polynomial_constants p)).
Proof.
  unfold _gyroid_porosity_to_t_value. split.
  - destruct (Qltb p 0) eqn:E1; destruct (Qltb 1 p) eqn:E2; simpl;
      rewrite ?Qltb_iff in *; rewrite ?Qltb_false in *; split; intro H;
      try tauto; try congruence.
    destruct H as [H|H]; exfalso; [apply (Qlt_not_le _ _ H E1)
                                  | apply (Qlt_not_le _ _ H E2)].
  - intros [H1 H2].
    destruct (Qltb p 0) eqn:E1.
    + apply Qltb_iff in E1. exfalso. apply (Qlt_not_le _ _ E1 H1).
    + destruct (Qltb 1 p) eqn:E2; [|reflexivity].
      apply Qltb_iff in E2. exfalso. apply (Qlt_not_le _ _ E2 H2).
Qed.

(** C8: for a positive normalising wavelength [l],
    [_sheet_thickness_to_t_value th l] raises [ValueError] exactly when
    [th / l] is outside the open interval (0, 0.88), and otherwise returns
    [np.interp] of [th / l] on the fixed sheet table (which does not raise);
    in particular a thickness of [0.9 * l] raises.  In
    [sheet_gyroid_function] the thickness path warns exactly when the three
    wavelengths are not all equal, and calibrates against their mean. *)
Theorem sheet_thickness_calibration_range :
  (forall th l, 0 < l ->
     (_sheet_thickness_to_t_value th l = Err ValueError <->
      th / l <= 0 \/ 0.88 <= th / l) /\
     (0 < th / l < 0.88 ->
      _sheet_thickness_to_t_value th l
      = np_interp (th / l) thickness_normalized isovalues /\
      is_err (np_interp (th / l) thickness_normalized isovalues) = false)) /\
  (forall l, 0 < l -> _sheet_thickness_to_t_value (0.9 * l) l = Err ValueError) /\
  (forall lx ly lz tx ty tz por th,
     fst (Fields.sheet_gyroid_function lx ly lz tx ty tz por None (Some th))
     = (if Fields.anisotropic lx ly lz then [Fields.AnisotropyWarning] else []) /\
     snd (Fields.sheet_gyroid_function lx ly lz tx ty tz por None (Some th))
     = (v <- _sheet_thickness_to_t_value th (Fields.mean3 lx ly lz) ;;
        snd (Fields.sheet_gyroid_function lx ly lz tx ty tz por (Some v) None))).
Proof.
  split; [|split].
  - intros th l Hl. unfold _sheet_thickness_to_t_value. split.
    + destruct (Qle_bool (th / l) 0) eqn:E1; simpl.
      * apply Qle_bool_iff in E1. tauto.
      * destruct (Qle_bool 0.88 (th / l)) eqn:E2; simpl.
        -- apply Qle_bool_iff in E2. tauto.
        -- apply Qle_bool_false in E1, E2. split; [|tauto].
           intro H. pose proof (sheet_table_interp_ok (th / l)) as Hk.
           rewrite H in Hk. discriminate.
    + intros [H1 H2].
      destruct (Qle_bool (th / l) 0) eqn:E1.
      * apply Qle_bool_iff in E1. exfalso. apply (Qlt_not_le _ _ H1 E1).
      * destruct (Qle_bool 0.88 (th / l)) eqn:E2.
        -- apply Qle_bool_iff in E2. exfalso. apply (Qlt_not_le _ _ H2 E2).
        -- split; [reflexivity | apply sheet_table_interp_ok].
  - intros l Hl. unfold _sheet_thickness_to_t_value.
    assert (Hq : 0.9 * l / l == 0.9).
    { field. intro H. rewrite H in Hl. discriminate. }
    assert (Qle_bool 0.88 (0.9 * l / l) = true) as ->.
    { apply Qle_bool_iff. rewrite Hq. discriminate. }
    rewrite orb_true_r. reflexivity.
  - intros lx ly lz tx ty tz por th. simpl. split; [reflexivity|].
    destruct (_sheet_thickness_to_t_value th (Fields.mean3 lx ly lz)); reflexivity.
Qed.

Lemma sheet_thickness_calibration_range_witness :
  (0 < 2 /\ 0 < 0.5 / 2 < 0.88) /\
  _sheet_thickness_to_t_value 0.5 2 = np_interp (0.5 / 2) thickness_normalized isovalues /\
  _sheet_thickness_to_t_value (0.9 * 2) 2 = Err ValueError.
Proof.
  destruct sheet_thickness_calibration_range as [H1 [H2 _]].
  split; [split; [reflexivity | split; reflexivity] |].
  split.
  - apply (H1 0.5 2); [reflexivity | split; reflexivity].
  - apply (H2 2). reflexivity.
Defined.

End CalibFacts.

Module CertFacts.

Import Calib Cert.
Local Open Scope Q_scope.

Lemma peval_nil x : peval [] x = 0.
Proof. reflexivity. Qed.

Lemma peval_cons c p x : peval (c :: p) x = c + x * peval p x.
Proof. reflexivity. Qed.

Lemma peval_comp p x y : x == y -> peval p x == peval p y.
Proof.
  intro H. induction p as [|c p IH]; rewrite ?peval_nil, ?peval_cons;
    [reflexivity|].
  rewrite IH, H. reflexivity.
Qed.

Lemma peval_padd p q x : peval (padd p q) x == peval p x + peval q x.
Proof.
  revert q. induction p as [|a p IH]; intros [|b q];
    cbn [padd]; rewrite ?peval_nil, ?peval_cons; try ring.
  rewrite IH. ring.
Qed.

Lemma peval_pscale a p x : peval (pscale a p) x == a * peval p x.
Proof.
  induction p as [|c p IH]; cbn [pscale map] in *;
    rewrite ?peval_nil, ?peval_cons; [ring|].
  unfold pscale in IH. rewrite IH. ring.
Qed.

Lemma peval_map_Qred p x : peval (map Qred p) x == peval p x.
Proof.
  induction p as [|c p IH]; cbn [map]; rewrite ?peval_nil, ?peval_cons;
    [reflexivity|].
  rewrite IH, Qred_correct. reflexivity.
Qed.

Lemma peval_shift p a t : peval (shift p a) t == peval p (a + t).
Proof.
  induction p as [|c p IH]; cbn [shift]; [reflexivity|].
  rewrite peval_map_Qred, !peval_padd, peval_pscale, !peval_cons, peval_nil.
  rewrite IH. ring.
Qed.

Lemma fold_left_horner_comp (l : list Q) x a b :
  a == b ->
  fold_left (fun acc c => acc * x + c) l a
  == fold_left (fun acc c => c + x * acc) l b.
Proof.
  revert a b. induction l as [|c l IH]; intros a b H; simpl; [exact H|].
  apply IH. rewrite H. ring.
Qed.

Lemma np_polyval_peval p x : np_polyval p x == peval (rev p) x.
Proof.
  unfold np_polyval, peval. rewrite fold_left_rev_right.
  apply fold_left_horner_comp. reflexivity.
Qed.

Lemma Qmult_le_compat_l x y z : x <= y -> 0 <= z -> z * x <= z * y.
Proof.
  intros H Hz. rewrite (Qmult_comm z x), (Qmult_comm z y).
  apply Qmult_le_compat_r; assumption.
Qed.

Lemma Qmax_ge_l x y : x <= Qmax x y.
Proof. apply Q.le_max_l. Qed.

Lemma Qmax_ge_r x y : y <= Qmax x y.
Proof. apply Q.le_max_r. Qed.

Lemma ubound_spec p h s : 0 <= s -> s <= h -> peval p s <= ubound p h.
Proof.
  intros Hs Hh. induction p as [|e r IH]; cbn [ubound];
    rewrite ?peval_nil, ?peval_cons; [apply Qle_refl|].
  rewrite Qred_correct.
  set (M := ubound r h) in *. set (R := peval r s) in *.
  pose proof (Qmax_ge_l 0 (h * M)). pose proof (Qmax_ge_r 0 (h * M)).
  pose proof (Qmult_le_compat_l _ _ _ IH Hs) as HsR.
  destruct (Qlt_le_dec M 0) as [HM|HM].
  - pose proof (Qmult_le_compat_l M 0 s ltac:(Lqa.lra) Hs) as Hz.
    rewrite Qmult_0_r in Hz. Lqa.lra.
  - pose proof (Qmult_le_compat_r s h M Hh HM). Lqa.lra.
Qed.

Lemma slope_bound_spec p h s t :
  0 <= s -> s <= t -> t <= h ->
  peval p t - peval p s <= (t - s) * slope_bound p h.
Proof.
  intros Hs Hst Ht. induction p as [|e r IH]; cbn [slope_bound];
    rewrite ?peval_nil, ?peval_cons.
  - Lqa.lra.
  - rewrite Qred_correct.
    pose proof (ubound_spec r h s Hs ltac:(Lqa.lra)) as HM.
    set (M := ubound r h) in *. set (L := slope_bound r h) in *.
    set (Rt := peval r t) in *. set (Rs := peval r s) in *.
    pose proof (Qmax_ge_l L 0). pose proof (Qmax_ge_r L 0).
    set (L' := Qmax L 0) in *.
    assert (Ht0 : 0 <= t) by Lqa.lra. assert (Hts : 0 <= t - s) by Lqa.lra.
    assert (H1 : t * (Rt - Rs) <= t * ((t - s) * L))
      by (apply Qmult_le_compat_l; assumption).
    assert (H2 : t * ((t - s) * L) <= (t - s) * (h * L')).
    { destruct (Qlt_le_dec L 0) as [HL|HL].
      - pose proof (Qmult_le_compat_l L 0 (t - s) ltac:(Lqa.lra) Hts) as A1.
        rewrite Qmult_0_r in A1.
        pose proof (Qmult_le_compat_l _ _ t A1 Ht0) as A2.
        rewrite Qmult_0_r in A2.
        pose proof (Qmult_le_0_compat h L' ltac:(Lqa.lra) ltac:(Lqa.lra)) as A3.
        pose proof (Qmult_le_0_compat (t - s) (h * L') Hts A3). Lqa.lra.
      - assert (EL : L' == L) by (unfold L'; apply Q.max_l; Lqa.lra).
        rewrite EL.
        pose proof (Qmult_le_compat_r t h L Ht HL) as A1.
        pose proof (Qmult_le_compat_l _ _ (t - s) A1 Hts) as A2.
        assert (E : t * ((t - s) * L) == (t - s) * (t * L)) by ring.
        rewrite E. exact A2. }
    assert (H3 : (t - s) * Rs <= (t - s) * M)
      by (apply Qmult_le_compat_l; assumption).
    Lqa.lra.
Qed.

(** On a segment [[a, a + h]] whose certificate holds, [p] is
    non-increasing. *)
Lemma segment_nonincreasing p a h x y :
  a <= x -> x <= y -> y <= a + h -> slope_bound (shift p a) h <= 0 ->
  peval p y <= peval p x.
Proof.
  intros Hx Hxy Hy HL.
  pose proof (slope_bound_spec (shift p a) h (x - a) (y - a)
                ltac:(Lqa.lra) ltac:(Lqa.lra) ltac:(Lqa.lra)) as H.
  rewrite !peval_shift in H.
  rewrite (peval_comp p (a + (y - a)) y) in H by ring.
  rewrite (peval_comp p (a + (x - a)) x) in H by ring.
  Lqa.nra.
Qed.

Lemma seg_start_succ i : seg_start (S i) == seg_start i + 1 / 50.
Proof.
  unfold seg_start. rewrite Nat2Z.inj_succ, <- Z.add_1_r, inject_Z_plus.
  field.
Qed.

Lemma seg_start_nonneg i : 0 <= seg_start i.
Proof.
  unfold seg_start. apply Qle_shift_div_l; [reflexivity|].
  rewrite Qmult_0_l. change 0 with (inject_Z 0). rewrite <- Zle_Qle. lia.
Qed.

Lemma gyroid_certificate_true :
  forallb (fun i => seg_check gyroid_coeffs (seg_start i) (1 / 50))
    (seq 0 50) = true.
Proof. vm_compute. reflexivity. Qed.

Lemma seg_check_sound p a h :
  seg_check p a h = true -> slope_bound (shift p a) h <= 0.
Proof. unfold seg_check. apply Qle_bool_iff. Qed.

Lemma seg_ok_lt i : (i < 50)%nat ->
  slope_bound (shift gyroid_coeffs (seg_start i)) (1 / 50) <= 0.
Proof.
  intro Hi. apply seg_check_sound.
  pose proof gyroid_certificate_true as H.
  rewrite forallb_forall in H. apply (H i). apply in_seq. lia.
Qed.

(** The gyroid polynomial is non-increasing on [[0, seg_start n]]. *)
Lemma gyroid_poly_nonincreasing_upto n : (n <= 50)%nat ->
  forall x y, 0 <= x -> x <= y -> y <= seg_start n ->
  peval gyroid_coeffs y <= peval gyroid_coeffs x.
Proof.
  induction n as [|n IH]; intros Hn x y Hx Hxy Hy.
  - assert (Hz : seg_start 0 == 0) by reflexivity.
    rewrite (peval_comp _ y x) by Lqa.lra. apply Qle_refl.
  - pose proof (seg_start_succ n) as Hs.
    pose proof (seg_start_nonneg n) as Hs0.
    pose proof (seg_ok_lt n ltac:(lia)) as Hc.
    destruct (Qlt_le_dec (seg_start n) y) as [Hy'|Hy'].
    + destruct (Qlt_le_dec x (seg_start n)) as [Hx'|Hx'].
      * apply Qle_trans with (peval gyroid_coeffs (seg_start n)).
        -- apply (segment_nonincreasing _ (seg_start n) (1 / 50));
             try Lqa.lra; assumption.
        -- apply IH; try lia; Lqa.lra.
      * apply (segment_nonincreasing _ (seg_start n) (1 / 50)); try Lqa.lra;
          assumption.
    + apply IH; try lia; Lqa.lra.
Qed.

Lemma gyroid_poly_nonincreasing x y :
  0 <= x -> x <= y -> y <= 1 ->
  np_polyval polynomial_constants y <= np_polyval polynomial_constants x.
Proof.
  intros Hx Hxy Hy. rewrite !np_polyval_peval.
  apply (gyroid_poly_nonincreasing_upto 50); try lia; try Lqa.lra.
  assert (seg_start 50 == 1) by reflexivity. Lqa.lra.
Qed.

Lemma slope_nonpos x0 y0 x1 y1 :
  x0 < x1 -> y1 <= y0 -> (y1 - y0) / (x1 - x0) <= 0.
Proof.
  intros H1 H2.
  assert (E : (y1 - y0) / (x1 - x0) * (x1 - x0) == y1 - y0)
    by (field; intro; Lqa.lra).
  set (s := (y1 - y0) / (x1 - x0)) in *.
  destruct (Qlt_le_dec 0 s) as [Hs|Hs]; [|exact Hs].
  assert (0 < s * (x1 - x0)) by (apply Qmult_lt_0_compat; Lqa.lra).
  Lqa.lra.
Qed.

Lemma decreasing_table_cons x0 y0 x1 y1 r :
  decreasing_table x0 y0 ((x1, y1) :: r) = true ->
  x0 < x1 /\ y1 <= y0 /\ decreasing_table x1 y1 r = true.
Proof.
  cbn [decreasing_table]. rewrite !andb_true_iff, CalibFacts.Qltb_iff.
  rewrite Qle_bool_iff. tauto.
Qed.

(** Past its first knot, the interpolant stays below the first value. *)
Lemma interp_from_le_first x x0 y0 rest :
  decreasing_table x0 y0 rest = true -> x0 <= x ->
  interp_from x x0 y0 rest <= y0.
Proof.
  revert x0 y0. induction rest as [|[x1 y1] r IH]; intros x0 y0 Hd Hx.
  - apply Qle_refl.
  - apply decreasing_table_cons in Hd as (H01 & Hy & Hd).
    cbn [interp_from]. destruct (Qltb x x1) eqn:Ex.
    + pose proof (slope_nonpos x0 y0 x1 y1 H01 Hy).
      set (s := (y1 - y0) / (x1 - x0)) in *.
      assert (0 <= x - x0) by Lqa.lra.
      assert ((x - x0) * s <= 0).
      { pose proof (Qmult_le_compat_l s 0 (x - x0) ltac:(assumption)
                      ltac:(assumption)) as A.
        rewrite Qmult_0_r in A. exact A. }
      Lqa.lra.
    + apply CalibFacts.Qltb_false in Ex.
      pose proof (IH x1 y1 Hd Ex). Lqa.lra.
Qed.

(** The piecewise-linear interpolant of a decreasing table is
    non-increasing. *)
Lemma interp_from_nonincreasing x y x0 y0 rest :
  decreasing_table x0 y0 rest = true -> x0 <= x -> x <= y ->
  interp_from y x0 y0 rest <= interp_from x x0 y0 rest.
Proof.
  revert x0 y0. induction rest as [|[x1 y1] r IH]; intros x0 y0 Hd Hx Hxy.
  - apply Qle_refl.
  - pose proof Hd as Hd0.
    apply decreasing_table_cons in Hd as (H01 & Hy & Hd).
    pose proof (slope_nonpos x0 y0 x1 y1 H01 Hy) as Hs.
    assert (E : y0 + (x1 - x0) * ((y1 - y0) / (x1 - x0)) == y1)
      by (field; intro; Lqa.lra).
    cbn [interp_from].
    set (s := (y1 - y0) / (x1 - x0)) in *.
    destruct (Qltb x x1) eqn:Ex, (Qltb y x1) eqn:Ey.
    + assert (0 <= y - x) by Lqa.lra.
      assert ((y - x) * s <= 0).
      { pose proof (Qmult_le_compat_l s 0 (y - x) ltac:(assumption)
                      ltac:(assumption)) as A.
        rewrite Qmult_0_r in A. exact A. }
      assert (R : y0 + (y - x0) * s == y0 + (x - x0) * s + (y - x) * s)
        by ring.
      rewrite R. Lqa.lra.
    + apply CalibFacts.Qltb_false in Ey. apply CalibFacts.Qltb_iff in Ex.
      pose proof (interp_from_le_first y x1 y1 r Hd Ey).
      assert (0 <= x1 - x) by Lqa.lra.
      assert ((x1 - x) * s <= 0).
      { pose proof (Qmult_le_compat_l s 0 (x1 - x) ltac:(assumption)
                      ltac:(assumption)) as A.
        rewrite Qmult_0_r in A. exact A. }
      assert (R : y0 + (x - x0) * s == y0 + (x1 - x0) * s - (x1 - x) * s)
        by ring.
      rewrite R, E. Lqa.lra.
    + apply CalibFacts.Qltb_false in Ex. apply CalibFacts.Qltb_iff in Ey.
      exfalso. Lqa.lra.
    + apply CalibFacts.Qltb_false in Ex.
      apply IH; assumption.
Qed.

Lemma np_interp_nonincreasing xp fp x0 y0 rest x y :
  length xp = length fp -> combine xp fp = (x0, y0) :: rest ->
  decreasing_table x0 y0 rest = true -> x <= y ->
  exists tx ty, np_interp x xp fp = Ok tx /\ np_interp y xp fp = Ok ty /\
    ty <= tx.
Proof.
  intros Hl Hc Hd Hxy. unfold np_interp.
  rewrite Hl, Nat.eqb_refl, Hc. cbn [negb].
  destruct (Qle_bool x x0) eqn:Ex, (Qle_bool y x0) eqn:Ey;
    eexists; eexists; (split; [reflexivity | split; [reflexivity |]]).
  - apply Qle_refl.
  - apply CalibFacts.Qle_bool_false in Ey. apply Qnot_le_lt in Ey.
    apply interp_from_le_first; [exact Hd | Lqa.lra].
  - apply Qle_bool_iff in Ey. apply CalibFacts.Qle_bool_false in Ex.
    exfalso. apply Ex. Lqa.lra.
  - apply CalibFacts.Qle_bool_false in Ex. apply Qnot_le_lt in Ex.
    apply interp_from_nonincreasing; [exact Hd | Lqa.lra | exact Hxy].
Qed.

Lemma diamond_table_decreasing_true :
  match combine POROSITY DIAMOND_T_VALUE with
  | [] => false
  | (x0, y0) :: rest => decreasing_table x0 y0 rest
  end = true.
Proof. vm_compute. reflexivity. Qed.

Lemma diamond_table_lengths : length POROSITY = length DIAMOND_T_VALUE.
Proof. vm_compute. reflexivity. Qed.

Lemma diamond_interp_nonincreasing x y : x <= y ->
  exists tx ty, _diamond_porosity_to_t_value x = Ok tx /\
    _diamond_porosity_to_t_value y = Ok ty /\ ty <= tx.
Proof.
  intro Hxy. unfold _diamond_porosity_to_t_value.
  pose proof diamond_table_decreasing_true as Hd.
  destruct (combine POROSITY DIAMOND_T_VALUE) as [|[x0 y0] rest] eqn:Ec.
  - discriminate Hd.
  - exact (np_interp_nonincreasing _ _ x0 y0 rest x y diamond_table_lengths
             Ec Hd Hxy).
Qed.

(** Claim C4 (corrected). On [[0, 1]] both calibrations are monotone,
    but non-INCREASING rather than non-decreasing: for [0 <= p1 <= p2 <= 1]
    the gyroid polynomial and the diamond table interpolation both succeed
    and give [t(p2) <= t(p1)]. The rationals are exact; the code's floating
    point rounding is not modelled. *)
Theorem calibration_nonincreasing p1 p2 :
  0 <= p1 -> p1 <= p2 -> p2 <= 1 ->
  (exists t1 t2, _gyroid_porosity_to_t_value p1 = Ok t1 /\
     _gyroid_porosity_to_t_value p2 = Ok t2 /\ t2 <= t1) /\
  (exists t1 t2, _diamond_porosity_to_t_value p1 = Ok t1 /\
     _diamond_porosity_to_t_value p2 = Ok t2 /\ t2 <= t1).
Proof.
  intros H1 H12 H2. split.
  - unfold _gyroid_porosity_to_t_value.
    assert (A1 : Qltb p1 0 = false) by (apply CalibFacts.Qltb_false; exact H1).
    assert (A2 : Qltb 1 p1 = false)
      by (apply CalibFacts.Qltb_false; Lqa.lra).
    assert (A3 : Qltb p2 0 = false)
      by (apply CalibFacts.Qltb_false; Lqa.lra).
    assert (A4 : Qltb 1 p2 = false) by (apply CalibFacts.Qltb_false; exact H2).
    rewrite A1, A2, A3, A4. cbn [orb].
    eexists; eexists; split; [reflexivity | split; [reflexivity |]].
    apply gyroid_poly_nonincreasing; assumption.
  - apply diamond_interp_nonincreasing. exact H12.
Qed.

Lemma calibration_nonincreasing_witness :
  (0 <= 0 /\ 0 <= 1 /\ 1 <= 1) /\
  (exists t1 t2, _gyroid_porosity_to_t_value 0 = Ok t1 /\
     _gyroid_porosity_to_t_value 1 = Ok t2 /\ t2 <= t1) /\
  (exists t1 t2, _diamond_porosity_to_t_value 0 = Ok t1 /\
     _diamond_porosity_to_t_value 1 = Ok t2 /\ t2 <= t1).
Proof.
  split; [split; [Lqa.lra | split; Lqa.lra] |].
  apply (calibration_nonincreasing 0 1); Lqa.lra.
Defined.

(** Claim C4, counterexample to "non-decreasing": porosity 0 maps to a
    strictly larger isovalue than porosity 1, for both families
    (gyroid 1.51588868 and below 0; diamond 1.41421356 and -1.41421356). *)
Lemma calibration_decreasing_at_endpoints :
  _gyroid_porosity_to_t_value 0 = Ok (np_polyval polynomial_constants 0) /\
  np_polyval polynomial_constants 0 == 1.51588868 /\
  (exists t1, _gyroid_porosity_to_t_value 1 = Ok t1 /\ t1 < 0) /\
  _diamond_porosity_to_t_value 0 = Ok 1.41421356 /\
  _diamond_porosity_to_t_value 1 = Ok (-1.41421356).
Proof.
  split; [reflexivity |].
  split; [vm_compute; reflexivity |].
  split; [eexists; split; [reflexivity | vm_compute; reflexivity] |].
  split; vm_compute; reflexivity.
Qed.

End CertFacts.

Module FieldFacts.

Import Euler Fields.

(** C5: a call that supplies two threshold controls raises [ValueError]:
    [gyroid_function] with an isovalue and a porosity other than 0.5;
    [sheet_gyroid_function] with an isovalue and a non-default porosity,
    with an isovalue and a sheet thickness, or with a sheet thickness and a
    non-default porosity. *)
Theorem two_threshold_parameters_rejected :
  (forall lx ly lz tx ty tz por v,
     ~ (por == 0.5)%Q ->
     gyroid_function lx ly lz tx ty tz por (Some v) = Err ValueError) /\
  (forall lx ly lz tx ty tz por v,
     porosity_not_default por = true ->
     snd (sheet_gyroid_function lx ly lz tx ty tz por (Some v) None)
     = Err ValueError) /\
  (forall lx ly lz tx ty tz por v th,
     snd (sheet_gyroid_function lx ly lz tx ty tz por (Some v) (Some th))
     = Err ValueError) /\
  (forall lx ly lz tx ty tz por th,
     porosity_not_default por = true ->
     snd (sheet_gyroid_function lx ly lz tx ty tz por None (Some th))
     = Err ValueError).
Proof.
  split; [|split; [|split]].
  - intros lx ly lz tx ty tz por v H. unfold gyroid_function. simpl.
    destruct (Qeq_bool por 0.5) eqn:E; [|reflexivity].
    apply Qeq_bool_iff in E. contradiction.
  - intros lx ly lz tx ty tz por v H. simpl.
    destruct (Qle_bool v 0); [reflexivity|]. rewrite H. reflexivity.
  - reflexivity.
  - intros lx ly lz tx ty tz por th H. simpl.
    destruct (Calib._sheet_thickness_to_t_value th (mean3 lx ly lz)) as [v|e] eqn:E.
    + simpl. destruct (Qle_bool v 0); [reflexivity|]. rewrite H. reflexivity.
    + apply CalibFacts.sheet_thickness_err in E. subst e. reflexivity.
Qed.

Lemma two_threshold_parameters_rejected_witness :
  (~ (0.3 == 0.5)%Q /\
   gyroid_function 1 1 1 0 0 0 0.3 (Some 0.2) = Err ValueError) /\
  (porosity_not_default (Some 0.3) = true /\
   snd (sheet_gyroid_function 1 1 1 0 0 0 (Some 0.3) (Some 0.2) None)
   = Err ValueError) /\
  snd (sheet_gyroid_function 1 1 1 0 0 0 (Some 0.5) (Some 0.2) (Some 0.1))
  = Err ValueError /\
  (porosity_not_default (Some 0.3) = true /\
   snd (sheet_gyroid_function 1 1 1 0 0 0 (Some 0.3) None (Some 0.1))
   = Err ValueError).
Proof.
  destruct two_threshold_parameters_rejected as [H1 [H2 [H3 H4]]].
  assert (Hn : ~ (0.3 == 0.5)%Q) by (intro H; discriminate H).
  split; [split; [exact Hn | apply H1; exact Hn] |].
  split; [split; [reflexivity | apply H2; reflexivity] |].
  split; [apply H3 |].
  split; [reflexivity | apply H4; reflexivity].
Defined.

Lemma max_shifted_pair (g a : R) :
  Rmax (g - a) (- (g - - a)) = (Rabs g - a)%R.
Proof.
  unfold Rabs. destruct (Rcase_abs g).
  - rewrite Rmax_right by lra. ring.
  - rewrite Rmax_left by lra. ring.
Qed.

(** C6 (amended): with the porosity left at its default and no sheet
    thickness, [sheet_gyroid_function(isovalue=v)] raises [ValueError]
    exactly when [v <= 0]; otherwise it builds [f_outer] = gyroid with
    isovalue [v/2] and [f_inner] = gyroid with isovalue [-v/2] (same
    wavelengths and angles) and returns their [sdf] difference
    [p |-> max(f_outer(p), -f_inner(p))], which is [|G(p)| - v/2] for the
    unshifted gyroid [G = f_outer + v/2]. *)
Theorem sheet_gyroid_from_isovalue lx ly lz tx ty tz v :
  (snd (sheet_gyroid_function lx ly lz tx ty tz (Some 0.5) (Some v) None)
   = Err ValueError <-> (v <= 0)%Q) /\
  ((0 < v)%Q ->
   exists f_outer f_inner f,
     gyroid_function lx ly lz tx ty tz 0.5 (Some (v / 2)%Q) = Ok f_outer /\
     gyroid_function lx ly lz tx ty tz 0.5 (Some (- (v / 2))%Q) = Ok f_inner /\
     snd (sheet_gyroid_function lx ly lz tx ty tz (Some 0.5) (Some v) None)
     = Ok f /\
     forall p, f p = Rmax (f_outer p) (- f_inner p) /\
               f p = (Rabs (f_outer p + Q2R (v / 2)) - Q2R (v / 2))%R).
Proof.
  split.
  - simpl. destruct (Qle_bool v 0) eqn:E.
    + apply Qle_bool_iff in E. tauto.
    + apply CalibFacts.Qle_bool_false in E. split; [discriminate | tauto].
  - intro Hv.
    assert (E : Qle_bool v 0 = false).
    { apply CalibFacts.Qle_bool_false. intro H. apply (Qlt_not_le _ _ Hv H). }
    simpl. rewrite E. simpl.
    do 3 eexists. split; [reflexivity|]. split; [reflexivity|].
    split; [reflexivity|].
    intros [[px py] pz]. unfold sdf_difference. split; [reflexivity|].
    rewrite Q2R_opp.
    destruct (row_matmul (scale_by_wavelength lx ly lz (px, py, pz))
                (rotate_about_xyz (Q2R tx) (Q2R ty) (Q2R tz) true))
      as [[x y] z].
    rewrite max_shifted_pair. f_equal. f_equal. ring.
Qed.

Lemma sheet_gyroid_from_isovalue_witness :
  (0 < 1)%Q /\
  exists f_outer f_inner f,
    gyroid_function 1 1 1 0 0 0 0.5 (Some (1 / 2)%Q) = Ok f_outer /\
    gyroid_function 1 1 1 0 0 0 0.5 (Some (- (1 / 2))%Q) = Ok f_inner /\
    snd (sheet_gyroid_function 1 1 1 0 0 0 (Some 0.5) (Some 1) None) = Ok f /\
    forall p, f p = Rmax (f_outer p) (- f_inner p) /\
              f p = (Rabs (f_outer p + Q2R (1 / 2)) - Q2R (1 / 2))%R.
Proof.
  split; [reflexivity|].
  apply (proj2 (sheet_gyroid_from_isovalue 1 1 1 0 0 0 1)). reflexivity.
Defined.

(** C6 as stated fails: [f_outer(p) - f_inner(p)] is the constant [-v]
    whereas the field returned for [v = 1] is at least [-1/2] everywhere. *)
Lemma sheet_gyroid_not_pointwise_subtraction :
  ~ (forall f f_outer f_inner,
       snd (sheet_gyroid_function 1 1 1 0 0 0 (Some 0.5) (Some 1) None) = Ok f ->
       gyroid_function 1 1 1 0 0 0 0.5 (Some (1 / 2)%Q) = Ok f_outer ->
       gyroid_function 1 1 1 0 0 0 0.5 (Some (- (1 / 2))%Q) = Ok f_inner ->
       forall p, f p = (f_outer p - f_inner p)%R).
Proof.
  intro H.
  specialize (H _ _ _ eq_refl eq_refl eq_refl (0, 0, 0)%R).
  unfold sdf_difference in H. cbv beta in H.
  destruct (row_matmul _ _) as [[x y] z] in H.
  match type of H with
  | Rmax (?g - ?a) (- (?h - ?b)) = _ =>
      set (G := g) in H; set (A := a) in H; set (B := b) in H;
      pose proof (Rmax_l (G - A) (- (G - B)));
      pose proof (Rmax_r (G - A) (- (G - B)))
  end.
  assert (HA : A = (1 / 2)%R) by (subst A; unfold Q2R; simpl; field).
  assert (HB : B = (- (1 / 2))%R) by (subst B; unfold Q2R; simpl; field).
  rewrite HA, HB in *. lra.
Qed.

Lemma deg2rad_radians (a : R) : deg2rad a = Spec.radians a.
Proof. unfold deg2rad, Spec.radians. field. Qed.

Lemma matmul_assoc (A B C : mat3) :
  matmul (matmul A B) C = matmul A (matmul B C).
Proof. destruct A, B, C. unfold matmul; simpl. f_equal; ring. Qed.

(** C9: [rotate_about_xyz] in degrees is the spec's [Rx . Ry . Rz] of the
    converted angles, and the gyroid evaluator (whether its threshold comes
    from an isovalue or from the porosity) applies it to the scaled row
    [p] as [p @ R]. *)
Theorem rotation_composition_order :
  (forall tx ty tz : R,
     rotate_about_xyz tx ty tz true = Spec.compose_rotation tx ty tz) /\
  (forall lx ly lz tx ty tz v,
     exists f, gyroid_function lx ly lz tx ty tz 0.5 (Some v) = Ok f /\
       forall p, f p = Spec.gyroid_spec lx ly lz tx ty tz (Q2R v) p) /\
  (forall lx ly lz tx ty tz por,
     match Calib._gyroid_porosity_to_t_value por with
     | Ok t => exists f, gyroid_function lx ly lz tx ty tz por None = Ok f /\
         forall p, f p = Spec.gyroid_spec lx ly lz tx ty tz (Q2R t) p
     | Err e => gyroid_function lx ly lz tx ty tz por None = Err e
     end).
Proof.
  assert (HR : forall tx ty tz : R,
             rotate_about_xyz tx ty tz true = Spec.compose_rotation tx ty tz).
  { intros tx ty tz. unfold rotate_about_xyz, Spec.compose_rotation.
    rewrite matmul_assoc, !deg2rad_radians. reflexivity. }
  split; [exact HR | split].
  - intros lx ly lz tx ty tz v. eexists. split; [reflexivity|].
    intro p. unfold Spec.gyroid_spec. rewrite HR. reflexivity.
  - intros lx ly lz tx ty tz por. unfold gyroid_function.
    destruct (Calib._gyroid_porosity_to_t_value por) as [t|e]; [|reflexivity].
    eexists. split; [reflexivity|].
    intro p. unfold Spec.gyroid_spec. rewrite HR. reflexivity.
Qed.

(** [np.interp] on the diamond table never raises. *)
Lemma diamond_table_interp_ok por :
  exists t, Calib._diamond_porosity_to_t_value por = Ok t.
Proof.
  unfold Calib._diamond_porosity_to_t_value, Calib.np_interp. simpl.
  destruct (Qle_bool por _); eexists; reflexivity.
Qed.

(** [diamond_function] takes no angles and applies no rotation: for every
    porosity it returns a field whose value at [p] is the diamond
    expression of the coordinates scaled by [2 pi / lambda] only, minus the
    calibrated [t]. *)
Lemma diamond_field_scaled_unrotated lx ly lz por :
  exists t f,
    Calib._diamond_porosity_to_t_value por = Ok t /\
    diamond_function lx ly lz por = Ok f /\
    forall p, f p = (let '(x, y, z) := scale_by_wavelength lx ly lz p in
                     Spec.diamond_expr x y z - Q2R t)%R.
Proof.
  destruct (diamond_table_interp_ok por) as [t Ht].
  exists t. unfold diamond_function. rewrite Ht. simpl.
  eexists. split; [reflexivity | split; [reflexivity|]].
  intros [[px py] pz]. unfold scale_by_wavelength, Spec.diamond_expr.
  rewrite !(Rmult_comm px), !(Rmult_comm py), !(Rmult_comm pz). reflexivity.
Qed.

Ltac trig_args_normalize H :=
  repeat match type of H with
  | context [sin ?a] =>
      lazymatch a with
      | 0%R => fail | (PI / 2)%R => fail | (- (PI / 2))%R => fail
      | _ => first [ replace a with 0%R in H by (field || ring)
                   | replace a with (PI / 2)%R in H by field
                   | replace a with (- (PI / 2))%R in H by field ]
      end
  | context [cos ?a] =>
      lazymatch a with
      | 0%R => fail | (PI / 2)%R => fail | (- (PI / 2))%R => fail
      | _ => first [ replace a with 0%R in H by (field || ring)
                   | replace a with (PI / 2)%R in H by field
                   | replace a with (- (PI / 2))%R in H by field ]
      end
  end.

(** Rotating by 90 degrees about x before evaluating the diamond
    expression changes its value at [(0, 1/4, 0)], but
    [diamond_function]'s field does not depend on any angle. *)
Lemma diamond_field_not_rotated :
  ~ (forall tx ty tz f t p,
       diamond_function 1 1 1 0 = Ok f ->
       Calib._diamond_porosity_to_t_value 0 = Ok t ->
       f p = Spec.diamond_spec_rotated 1 1 1 tx ty tz (Q2R t) p).
Proof.
  intro H.
  destruct (diamond_table_interp_ok 0) as [t Ht].
  vm_compute in Ht. injection Ht as <-.
  specialize (H 90%Q 0%Q 0%Q _ _ (0, 1 / 4, 0)%R eq_refl eq_refl).
  unfold Spec.diamond_spec_rotated, Spec.compose_rotation in H.
  assert (Q0 : Q2R 0 = 0%R) by (unfold Q2R; simpl; field).
  assert (Q1 : Q2R 1 = 1%R) by (unfold Q2R; simpl; field).
  assert (Q90 : Q2R 90 = 90%R) by (unfold Q2R; simpl; field).
  rewrite Q0, Q90 in H.
  replace (Spec.radians 90) with (PI / 2)%R in H
    by (unfold Spec.radians; field).
  replace (Spec.radians 0) with 0%R in H by (unfold Spec.radians; field).
  unfold Spec.Rx, Spec.Ry, Spec.Rz in H.
  rewrite cos_PI2, sin_PI2, cos_0, sin_0 in H.
  unfold matmul, row_matmul, scale_by_wavelength, Spec.diamond_expr in H.
  simpl in H. rewrite Q1 in H.
  trig_args_normalize H.
  rewrite ?sin_neg, ?cos_neg, ?cos_PI2, ?sin_PI2, ?cos_0, ?sin_0 in H.
  unfold Q2R in H. simpl in H. lra.
Qed.

(** C1 (code bug): the diamond evaluator never rotates.  For every
    wavelength and porosity [diamond_function]'s field is the diamond
    expression of the scaled coordinates only, and it is not the claimed
    rotated field: with [lambda = 1], porosity [0] and [theta_x = 90] the
    two differ at [(0, 1/4, 0)], although [diamond_box] and the script
    forward the angles for the diamond lattice too. *)
Theorem diamond_field_ignores_rotation :
  (forall lx ly lz por,
     exists t f,
       Calib._diamond_porosity_to_t_value por = Ok t /\
       diamond_function lx ly lz por = Ok f /\
       forall p, f p = (let '(x, y, z) := scale_by_wavelength lx ly lz p in
                        Spec.diamond_expr x y z - Q2R t)%R) /\
  ~ (forall tx ty tz f t p,
       diamond_function 1 1 1 0 = Ok f ->
       Calib._diamond_porosity_to_t_value 0 = Ok t ->
       f p = Spec.diamond_spec_rotated 1 1 1 tx ty tz (Q2R t) p).
Proof.
  split; [exact diamond_field_scaled_unrotated | exact diamond_field_not_rotated].
Qed.

End FieldFacts.

Module BoxFacts.

Import Euler Fields Boxes.

(** C2: every call to [diamond_box] raises before producing a field.  It
    raises [TypeError] when [n_periods] is an [int] or a 3-tuple, because
    [diamond_function] accepts no [theta_x]/[theta_y]/[theta_z] keywords;
    a tuple of any other length is rejected first with [ValueError]. *)
Theorem diamond_box_never_returns_a_field :
  (forall lx ly lz tx ty tz por n,
      is_err (diamond_box lx ly lz tx ty tz por n) = true) /\
  (forall lx ly lz tx ty tz por k,
      diamond_box lx ly lz tx ty tz por (NInt k) = Err TypeError) /\
  (forall lx ly lz tx ty tz por l,
      diamond_box lx ly lz tx ty tz por (NTuple l)
      = Err (if Nat.eqb (length l) 3 then TypeError else ValueError)).
Proof.
  split; [|split].
  - intros lx ly lz tx ty tz por n.
    destruct n as [k | l | l | q |]; try reflexivity.
    + destruct l as [|a [|b [|c [|d l]]]]; reflexivity.
    + destruct l as [|a [|b [|c l]]]; reflexivity.
  - reflexivity.
  - intros lx ly lz tx ty tz por l.
    destruct l as [|a [|b [|c [|d l]]]]; reflexivity.
Qed.

(** C2, counterexample to "always a [TypeError]": a 2-tuple [n_periods]
    is rejected by the shape check with a [ValueError] before the keyword
    call is reached. *)
Lemma diamond_box_short_tuple_value_error :
  diamond_box 1 1 1 0 0 0 0.5 (NTuple [1; 2]) = Err ValueError.
Proof. reflexivity. Qed.

(** An [int] [n_periods] is the uniform tuple, and a 3-tuple [(a, b, c)]
    gives the box [(lambda_x * a, lambda_y * b, lambda_z * c)] intersected
    with the gyroid field. *)
Lemma gyroid_box_periods lx ly lz tx ty tz por k a b c :
  gyroid_box lx ly lz tx ty tz por (NInt k)
  = gyroid_box lx ly lz tx ty tz por
      (NTuple [inject_Z k; inject_Z k; inject_Z k]) /\
  gyroid_box lx ly lz tx ty tz por (NTuple [a; b; c])
  = (infill <- gyroid_function lx ly lz tx ty tz por None ;;
     Ok (sdf_intersection
           (sdf_box (Q2R (lx * a), Q2R (ly * b), Q2R (lz * c))) infill)).
Proof. split; reflexivity. Qed.

Lemma sdf_box_value_pos qx qy qz :
  (0 < qx \/ 0 < qy \/ 0 < qz)%R ->
  (0 < sqrt (Rmax qx 0 * Rmax qx 0 + Rmax qy 0 * Rmax qy 0
             + Rmax qz 0 * Rmax qz 0)
       + Rmin (Rmax qx (Rmax qy qz)) 0)%R.
Proof.
  intro H.
  pose proof (Rmax_l qx (Rmax qy qz)). pose proof (Rmax_r qx (Rmax qy qz)).
  pose proof (Rmax_l qy qz). pose proof (Rmax_r qy qz).
  assert (Hm : (0 < Rmax qx (Rmax qy qz))%R) by (destruct H as [H|[H|H]]; lra).
  rewrite (Rmin_right _ _ (Rlt_le _ _ Hm)), Rplus_0_r.
  apply sqrt_lt_R0.
  pose proof (Rmax_l qx 0). pose proof (Rmax_r qx 0).
  pose proof (Rmax_l qy 0). pose proof (Rmax_r qy 0).
  pose proof (Rmax_l qz 0). pose proof (Rmax_r qz 0).
  pose proof (Rle_0_sqr (Rmax qx 0)). pose proof (Rle_0_sqr (Rmax qy 0)).
  pose proof (Rle_0_sqr (Rmax qz 0)). unfold Rsqr in *.
  destruct H as [H|[H|H]].
  - pose proof (Rmult_lt_0_compat (Rmax qx 0) (Rmax qx 0) ltac:(lra) ltac:(lra)); lra.
  - pose proof (Rmult_lt_0_compat (Rmax qy 0) (Rmax qy 0) ltac:(lra) ltac:(lra)); lra.
  - pose proof (Rmult_lt_0_compat (Rmax qz 0) (Rmax qz 0) ltac:(lra) ltac:(lra)); lra.
Qed.

(** [sdf.box(size)] is non-positive exactly on the closed box
    [|p_i| <= size_i / 2]: its extents are [size]. *)
Lemma sdf_box_nonpos sx sy sz px py pz :
  (sdf_box (sx, sy, sz) (px, py, pz) <= 0 <->
   Rabs px <= sx / 2 /\ Rabs py <= sy / 2 /\ Rabs pz <= sz / 2)%R.
Proof.
  unfold sdf_box. split.
  - intro H.
    destruct (Rle_dec (Rabs px - sx / 2) 0) as [Hx|Hx];
    destruct (Rle_dec (Rabs py - sy / 2) 0) as [Hy|Hy];
    destruct (Rle_dec (Rabs pz - sz / 2) 0) as [Hz|Hz];
    try (split; [lra | split; lra]); exfalso;
    (match type of H with
     | (?v <= 0)%R =>
         assert (Hp : (0 < v)%R)
           by (apply sdf_box_value_pos; lra)
     end); lra.
  - intros [Hx [Hy Hz]].
    rewrite (Rmax_right (Rabs px - sx / 2) 0) by lra.
    rewrite (Rmax_right (Rabs py - sy / 2) 0) by lra.
    rewrite (Rmax_right (Rabs pz - sz / 2) 0) by lra.
    replace (0 * 0 + 0 * 0 + 0 * 0)%R with 0%R by ring.
    rewrite sqrt_0, Rplus_0_l.
    apply Rmin_r.
Qed.

(** C10 (code bug): on the declared [n_periods] types, an [int] or a
    tuple, [gyroid_box] and [sheet_gyroid_box] behave as claimed: an [int]
    [k] is the tuple [(k, k, k)], a 3-tuple [(a, b, c)] gives the box
    [(lambda_x * a, lambda_y * b, lambda_z * c)] intersected with the field,
    and a tuple of any other length is a [ValueError].  The third domain
    composer, [diamond_box], raises [TypeError] for every [int] and every
    3-tuple, so it never composes the box. *)
Theorem box_composers_n_periods :
  (forall lx ly lz tx ty tz por k,
     gyroid_box lx ly lz tx ty tz por (NInt k)
     = gyroid_box lx ly lz tx ty tz por
         (NTuple [inject_Z k; inject_Z k; inject_Z k]) /\
     sheet_gyroid_box lx ly lz tx ty tz por (NInt k)
     = sheet_gyroid_box lx ly lz tx ty tz por
         (NTuple [inject_Z k; inject_Z k; inject_Z k])) /\
  (forall lx ly lz tx ty tz por l,
     gyroid_box lx ly lz tx ty tz por (NTuple l)
     = match l with
       | [a; b; c] =>
           infill <- gyroid_function lx ly lz tx ty tz por None ;;
           Ok (sdf_intersection
                 (sdf_box (Q2R (lx * a), Q2R (ly * b), Q2R (lz * c))) infill)
       | _ => Err ValueError
       end /\
     sheet_gyroid_box lx ly lz tx ty tz por (NTuple l)
     = match l with
       | [a; b; c] =>
           infill <- snd (sheet_gyroid_function lx ly lz tx ty tz (Some por)
                            None None) ;;
           Ok (sdf_intersection
                 (sdf_box (Q2R (lx * a), Q2R (ly * b), Q2R (lz * c))) infill)
       | _ => Err ValueError
       end) /\
  (forall lx ly lz tx ty tz por k,
     diamond_box lx ly lz tx ty tz por (NInt k) = Err TypeError) /\
  (forall lx ly lz tx ty tz por a b c,
     diamond_box lx ly lz tx ty tz por (NTuple [a; b; c]) = Err TypeError).
Proof.
  split; [| split; [| split]].
  - intros. split; reflexivity.
  - intros lx ly lz tx ty tz por l.
    destruct l as [|a [|b [|c [|d l]]]]; split; reflexivity.
  - reflexivity.
  - reflexivity.
Qed.

End BoxFacts.

Module MeshFacts.

Import Mesh.
Local Open Scope R_scope.

Section Blocks.

Variables B C : Type.

Lemma length_flat_map_uniform (g : B -> list C) (l : list B) m :
  (forall x, length (g x) = m) -> length (flat_map g l) = (length l * m)%nat.
Proof.
  intro Hg. induction l as [|x l IH]; simpl; [reflexivity|].
  rewrite length_app, Hg, IH. reflexivity.
Qed.

Lemma nth_flat_map_uniform (g : B -> list C) (l : list B) m i j db dc :
  (forall x, length (g x) = m) -> (i < length l)%nat -> (j < m)%nat ->
  nth (i * m + j) (flat_map g l) dc = nth j (g (nth i l db)) dc.
Proof.
  intros Hg. revert i. induction l as [|x l IH]; intros i Hi Hj;
    simpl in *; [lia|].
  destruct i as [|i].
  - simpl. rewrite app_nth1 by (rewrite Hg; lia). reflexivity.
  - rewrite app_nth2 by (rewrite Hg; nia). rewrite Hg.
    replace (S i * m + j - m)%nat with (i * m + j)%nat by nia.
    apply IH; lia.
Qed.

Lemma nth_map_lt (g : B -> C) (l : list B) i db dc :
  (i < length l)%nat -> nth i (map g l) dc = g (nth i l db).
Proof.
  intro Hi. rewrite (nth_indep _ dc (g db)) by (rewrite length_map; exact Hi).
  apply map_nth.
Qed.

End Blocks.

Lemma nth_cartesian_product {A} (X Y Z : list A) d i j k :
  (i < length X)%nat -> (j < length Y)%nat -> (k < length Z)%nat ->
  nth (i * (length Y * length Z) + j * length Z + k)
      (cartesian_product X Y Z) (d, d, d)
  = (nth i X d, nth j Y d, nth k Z d).
Proof.
  intros Hi Hj Hk. unfold cartesian_product.
  rewrite <- Nat.add_assoc.
  rewrite nth_flat_map_uniform with (m := (length Y * length Z)%nat)
    (db := d); try nia.
  - rewrite nth_flat_map_uniform with (m := length Z) (db := d);
      [| intro y; apply length_map | lia | lia].
    rewrite nth_map_lt with (db := d) by lia. reflexivity.
  - intro x. rewrite length_flat_map_uniform with (m := length Z);
      [reflexivity | intro y; apply length_map].
Qed.

Lemma idx3_lt nx ny nz i j k :
  (i < nx)%nat -> (j < ny)%nat -> (k < nz)%nat ->
  (i * (ny * nz) + j * nz + k < nx * (ny * nz))%nat.
Proof.
  intros Hi Hj Hk.
  assert (H1 : (j * nz + k < ny * nz)%nat) by nia.
  assert (H2 : ((i + 1) * (ny * nz) <= nx * (ny * nz))%nat)
    by (apply Nat.mul_le_mono_r; lia).
  nia.
Qed.

Lemma length_cartesian_product {A} (X Y Z : list A) :
  length (cartesian_product X Y Z) = (length X * (length Y * length Z))%nat.
Proof.
  unfold cartesian_product.
  apply length_flat_map_uniform. intro x.
  apply length_flat_map_uniform. intro y. apply length_map.
Qed.

Lemma length_ravel_F nx ny nz a :
  length (ravel_F nx ny nz a) = (nz * (ny * nx))%nat.
Proof.
  unfold ravel_F. rewrite length_flat_map_uniform with (m := (ny * nx)%nat).
  - rewrite length_seq. reflexivity.
  - intro k. rewrite length_flat_map_uniform with (m := nx).
    + rewrite length_seq. reflexivity.
    + intro j. rewrite length_map, length_seq. reflexivity.
Qed.

Lemma nth_ravel_F nx ny nz a i j k :
  (i < nx)%nat -> (j < ny)%nat -> (k < nz)%nat ->
  nth (i + nx * (j + ny * k)) (ravel_F nx ny nz a) 0 = a i j k.
Proof.
  intros Hi Hj Hk. unfold ravel_F.
  replace (i + nx * (j + ny * k))%nat with (k * (ny * nx) + (j * nx + i))%nat
    by nia.
  rewrite nth_flat_map_uniform with (m := (ny * nx)%nat) (db := 0%nat);
    [| | rewrite length_seq; lia | nia].
  - rewrite seq_nth by lia.
    rewrite nth_flat_map_uniform with (m := nx) (db := 0%nat);
      [| | rewrite length_seq; lia | lia].
    + rewrite seq_nth by lia. rewrite nth_map_lt with (db := 0%nat)
        by (rewrite length_seq; lia).
      rewrite seq_nth by lia. reflexivity.
    + intro j'. rewrite length_map, length_seq. reflexivity.
  - intro k'. rewrite length_flat_map_uniform with (m := nx).
    + rewrite length_seq. reflexivity.
    + intro j'. rewrite length_map, length_seq. reflexivity.
Qed.

(** C7 (amended): the array handed to the extractor has one entry per grid
    point; the natural evaluation order ([_cartesian_product]) varies the
    last axis fastest, and after the explicit reorder the entry at
    [i + nx * (j + ny * k)] is [-f(X_i, Y_j, Z_k)]: the first axis varies
    fastest and the last slowest (Fortran order). *)
Theorem extractor_input_fortran_order {A} (f : A * A * A -> R) (X Y Z : list A)
    (d : A) :
  length (extractor_input f X Y Z) = (length X * length Y * length Z)%nat /\
  (forall i j k,
     (i < length X)%nat -> (j < length Y)%nat -> (k < length Z)%nat ->
     nth (i * (length Y * length Z) + j * length Z + k)
         (cartesian_product X Y Z) (d, d, d)
     = (nth i X d, nth j Y d, nth k Z d) /\
     nth (i + length X * (j + length Y * k)) (extractor_input f X Y Z) 0
     = - f (nth i X d, nth j Y d, nth k Z d)).
Proof.
  split.
  - unfold extractor_input. rewrite length_ravel_F. lia.
  - intros i j k Hi Hj Hk. split; [apply nth_cartesian_product; assumption|].
    unfold extractor_input. rewrite nth_ravel_F by assumption.
    unfold reshape_C.
    rewrite nth_map_lt with (db := (d, d, d))
      by (rewrite length_cartesian_product; apply idx3_lt; assumption).
    rewrite nth_cartesian_product by assumption. reflexivity.
Qed.

Lemma extractor_input_fortran_order_witness :
  (0 < 2 /\ 0 < 1 /\ 1 < 2)%nat /\
  nth (0 + 2 * (0 + 1 * 1))
      (extractor_input (fun '(x, y, z) => x + 10 * z) [0; 1] [0] [0; 2]) 0
  = - ((0 + 10 * 2) : R).
Proof.
  split; [lia|].
  destruct (extractor_input_fortran_order (fun '(x, y, z) => x + 10 * z)
              [0; 1] [0] [0; 2] 0) as [_ H].
  destruct (H 0%nat 0%nat 1%nat) as [_ H']; [simpl; lia .. |].
  exact H'.
Defined.

(** C7 as stated ("first axis varying slowest") fails: on the grid
    X = [0; 1], Y = [0], Z = [0; 2], the second entry of the array is
    [-f(X_1, Y_0, Z_0)], not [-f(X_0, Y_0, Z_1)]. *)
Lemma extractor_input_first_axis_not_slowest :
  ~ (forall (f : R * R * R -> R) (X Y Z : list R) i j k,
       (i < length X)%nat -> (j < length Y)%nat -> (k < length Z)%nat ->
       nth (i * (length Y * length Z) + j * length Z + k)
           (extractor_input f X Y Z) 0
       = - f (nth i X 0, nth j Y 0, nth k Z 0)).
Proof.
  intro H.
  specialize (H (fun '(x, y, z) => x + 10 * z) [0; 1] [0] [0; 2]
                0%nat 0%nat 1%nat).
  simpl in H. specialize (H ltac:(lia) ltac:(lia) ltac:(lia)).
  unfold reshape_C in H. simpl in H. lra.
Qed.

End MeshFacts.

Module RotationFacts.

Import Euler Linalg.
Local Open Scope R_scope.

Lemma transpose_matmul A B :
  transpose (matmul A B) = matmul (transpose B) (transpose A).
Proof. destruct A, B. unfold transpose, matmul; simpl. f_equal; ring. Qed.

Lemma matmul_id_l A : matmul mat_id A = A.
Proof. destruct A. unfold matmul, mat_id; simpl. f_equal; ring. Qed.

Lemma matmul_assoc' (A B C : mat3) :
  matmul (matmul A B) C = matmul A (matmul B C).
Proof. destruct A, B, C. unfold matmul; simpl. f_equal; ring. Qed.

Lemma det3_matmul A B : det3 (matmul A B) = det3 A * det3 B.
Proof. destruct A, B. unfold det3, matmul; simpl. ring. Qed.

Lemma orthogonal_matmul A B :
  orthogonal A -> orthogonal B -> orthogonal (matmul A B).
Proof.
  intros [HA1 HA2] [HB1 HB2]. split.
  - rewrite transpose_matmul, matmul_assoc'.
    rewrite <- (matmul_assoc' (transpose A) A B), HA1, matmul_id_l. exact HB1.
  - rewrite transpose_matmul, matmul_assoc'.
    rewrite <- (matmul_assoc' B (transpose B) (transpose A)), HB2, matmul_id_l.
    exact HA2.
Qed.

Lemma norm2_row_matmul A p :
  matmul A (transpose A) = mat_id -> norm2 (row_matmul p A) = norm2 p.
Proof.
  intro H. destruct p as [[x y] z].
  assert (E : norm2 (row_matmul (x, y, z) A)
              = x * x * m00 (matmul A (transpose A))
                + y * y * m11 (matmul A (transpose A))
                + z * z * m22 (matmul A (transpose A))
                + 2 * x * y * m01 (matmul A (transpose A))
                + 2 * x * z * m02 (matmul A (transpose A))
                + 2 * y * z * m12 (matmul A (transpose A))).
  { destruct A. unfold norm2, row_matmul, matmul, transpose; simpl. ring. }
  rewrite E, H. unfold mat_id, norm2; simpl. ring.
Qed.

Ltac rot_solve t :=
  pose proof (sin2_cos2 t) as Hsc; unfold Rsqr in Hsc;
  unfold orthogonal, matmul, transpose, mat_id, det3; simpl;
  repeat split; try f_equal; nra.

Lemma rot_x_proper t :
  orthogonal (rotate_about_x t false) /\ det3 (rotate_about_x t false) = 1.
Proof. unfold rotate_about_x. rot_solve t. Qed.

Lemma rot_y_proper t :
  orthogonal (rotate_about_y t false) /\ det3 (rotate_about_y t false) = 1.
Proof. unfold rotate_about_y. rot_solve t. Qed.

Lemma rot_z_proper t :
  orthogonal (rotate_about_z t false) /\ det3 (rotate_about_z t false) = 1.
Proof. unfold rotate_about_z. rot_solve t. Qed.

(** [rotate_about_xyz] is a proper rotation for every angle triple, in
    degrees or radians: [R^T R = R R^T = I], [det R = 1], and [p @ R]
    keeps the length of every point [p]. *)
Theorem rotate_about_xyz_proper tx ty tz degrees :
  let R := rotate_about_xyz tx ty tz degrees in
  matmul (transpose R) R = mat_id /\ matmul R (transpose R) = mat_id /\
  det3 R = 1 /\ forall p, norm2 (row_matmul p R) = norm2 p.
Proof.
  intro R.
  assert (E : exists a b c, R = matmul (matmul (rotate_about_x a false)
                                  (rotate_about_y b false))
                                  (rotate_about_z c false)).
  { unfold R, rotate_about_xyz. destruct degrees; do 3 eexists; reflexivity. }
  destruct E as (a & b & c & ->).
  destruct (rot_x_proper a) as [Ox Dx].
  destruct (rot_y_proper b) as [Oy Dy].
  destruct (rot_z_proper c) as [Oz Dz].
  pose proof (orthogonal_matmul _ _ (orthogonal_matmul _ _ Ox Oy) Oz) as [O1 O2].
  split; [exact O1 | split; [exact O2 | split]].
  - rewrite !det3_matmul, Dx, Dy, Dz. ring.
  - intro p. apply norm2_row_matmul. exact O2.
Qed.

Lemma deg2rad_plus a b : deg2rad (a + b) = deg2rad a + deg2rad b.
Proof. unfold deg2rad. ring. Qed.

(** Two rotations about the same axis compose by adding their angles, in
    degrees or radians, and [rotate_about_xyz] of three zero angles is the
    identity matrix. *)
Theorem single_axis_rotations_add a b degrees :
  matmul (rotate_about_x a degrees) (rotate_about_x b degrees)
    = rotate_about_x (a + b) degrees /\
  matmul (rotate_about_y a degrees) (rotate_about_y b degrees)
    = rotate_about_y (a + b) degrees /\
  matmul (rotate_about_z a degrees) (rotate_about_z b degrees)
    = rotate_about_z (a + b) degrees /\
  rotate_about_xyz 0 0 0 degrees = mat_id.
Proof.
  unfold rotate_about_xyz, rotate_about_x, rotate_about_y, rotate_about_z.
  assert (Plus : (if degrees then deg2rad (a + b) else a + b)
                 = (if degrees then deg2rad a else a)
                   + (if degrees then deg2rad b else b))
    by (destruct degrees; [apply deg2rad_plus | reflexivity]).
  assert (Zero : (if degrees then deg2rad 0 else 0) = 0)
    by (destruct degrees; [unfold deg2rad; ring | reflexivity]).
  cbv beta iota zeta. rewrite Plus, Zero.
  set (u := if degrees then deg2rad a else a).
  set (v := if degrees then deg2rad b else b).
  rewrite cos_plus, sin_plus, cos_0, sin_0.
  unfold matmul, mat_id; simpl.
  repeat split; f_equal; ring.
Qed.

End RotationFacts.

Module CertStrictFacts.

Import Calib Cert CertFacts.
Local Open Scope Q_scope.

Lemma segment_decreasing p a h x y :
  a <= x -> x < y -> y <= a + h -> slope_bound (shift p a) h < 0 ->
  peval p y < peval p x.
Proof.
  intros Hx Hxy Hy HL.
  pose proof (slope_bound_spec (shift p a) h (x - a) (y - a)
                ltac:(Lqa.lra) ltac:(Lqa.lra) ltac:(Lqa.lra)) as H.
  rewrite !peval_shift in H.
  rewrite (peval_comp p (a + (y - a)) y) in H by ring.
  rewrite (peval_comp p (a + (x - a)) x) in H by ring.
  Lqa.nra.
Qed.

Lemma gyroid_strict_certificate_true :
  forallb (fun i => seg_check_strict gyroid_coeffs (seg_start i) (1 / 50))
    (seq 0 50) = true.
Proof. vm_compute. reflexivity. Qed.

Lemma seg_check_strict_sound p a h :
  seg_check_strict p a h = true -> slope_bound (shift p a) h < 0.
Proof. unfold seg_check_strict. apply CalibFacts.Qltb_iff. Qed.

Lemma seg_strict_lt i : (i < 50)%nat ->
  slope_bound (shift gyroid_coeffs (seg_start i)) (1 / 50) < 0.
Proof.
  intro Hi. apply seg_check_strict_sound.
  pose proof gyroid_strict_certificate_true as H.
  rewrite forallb_forall in H. apply (H i). apply in_seq. lia.
Qed.

Lemma gyroid_poly_decreasing_upto n : (n <= 50)%nat ->
  forall x y, 0 <= x -> x < y -> y <= seg_start n ->
  peval gyroid_coeffs y < peval gyroid_coeffs x.
Proof.
  induction n as [|n IH]; intros Hn x y Hx Hxy Hy.
  - assert (Hz : seg_start 0 == 0) by reflexivity.
    exfalso. Lqa.lra.
  - pose proof (seg_start_succ n) as Hs.
    pose proof (seg_start_nonneg n) as Hs0.
    pose proof (seg_strict_lt n ltac:(lia)) as Hc.
    pose proof (seg_ok_lt n ltac:(lia)) as Hc'.
    set (s := seg_start n) in *. clearbody s.
    destruct (Qlt_le_dec s y) as [Hy'|Hy'].
    + destruct (Qlt_le_dec x s) as [Hx'|Hx'].
      * apply Qlt_le_trans with (peval gyroid_coeffs s).
        -- apply (segment_decreasing _ s (1 / 50)); [apply Qle_refl | exact Hy'
                                                   | Lqa.lra | exact Hc].
        -- apply Qlt_le_weak. apply IH; [lia | exact Hx | exact Hx' | ].
           apply Qle_refl.
      * apply (segment_decreasing _ s (1 / 50));
          [exact Hx' | exact Hxy | Lqa.lra | exact Hc].
    + apply IH; [lia | exact Hx | exact Hxy | exact Hy'].
Qed.

(** The gyroid calibration is strictly decreasing on [[0, 1]]: distinct
    porosities there give distinct isovalues, and a larger porosity a
    smaller one. *)
Theorem gyroid_calibration_strictly_decreasing p1 p2 :
  0 <= p1 -> p1 < p2 -> p2 <= 1 ->
  exists t1 t2, _gyroid_porosity_to_t_value p1 = Ok t1 /\
    _gyroid_porosity_to_t_value p2 = Ok t2 /\ t2 < t1.
Proof.
  intros H1 H12 H2.
  destruct (CalibFacts.gyroid_porosity_range p1) as [_ E1].
  destruct (CalibFacts.gyroid_porosity_range p2) as [_ E2].
  exists (np_polyval polynomial_constants p1),
         (np_polyval polynomial_constants p2).
  split; [apply E1; split; Lqa.lra | split; [apply E2; split; Lqa.lra |]].
  rewrite !np_polyval_peval.
  apply (gyroid_poly_decreasing_upto 50); [lia | exact H1 | exact H12 |].
  assert (E : seg_start 50 == 1) by reflexivity. Lqa.lra.
Qed.

Lemma gyroid_calibration_strictly_decreasing_witness :
  (0 <= 0 /\ 0 < 1 /\ 1 <= 1) /\
  exists t1 t2, _gyroid_porosity_to_t_value 0 = Ok t1 /\
    _gyroid_porosity_to_t_value 1 = Ok t2 /\ t2 < t1.
Proof.
  split; [split; [Lqa.lra | split; Lqa.lra] |].
  apply (gyroid_calibration_strictly_decreasing 0 1); Lqa.lra.
Defined.

End CertStrictFacts.

Module FieldShapeFacts.

Import Euler Fields Linalg.
Local Open Scope R_scope.

Lemma scale_neg lx ly lz p :
  scale_by_wavelength lx ly lz (neg3 p) = neg3 (scale_by_wavelength lx ly lz p).
Proof.
  destruct p as [[x y] z]. unfold scale_by_wavelength, neg3.
  f_equal; [f_equal|]; ring.
Qed.

Lemma scale_zero lx ly lz : scale_by_wavelength lx ly lz (0, 0, 0) = (0, 0, 0).
Proof. unfold scale_by_wavelength. f_equal; [f_equal|]; ring. Qed.

Lemma row_matmul_neg p M : row_matmul (neg3 p) M = neg3 (row_matmul p M).
Proof.
  destruct p as [[x y] z]. unfold row_matmul, neg3.
  f_equal; [f_equal|]; ring.
Qed.

Lemma row_matmul_zero M : row_matmul (0, 0, 0) M = (0, 0, 0).
Proof. unfold row_matmul. f_equal; [f_equal|]; ring. Qed.

Lemma gyroid_expr_neg q : gyroid_expr (neg3 q) = - gyroid_expr q.
Proof.
  destruct q as [[x y] z]. unfold gyroid_expr, neg3.
  rewrite !cos_neg, !sin_neg. ring.
Qed.

Lemma gyroid_expr_zero : gyroid_expr (0, 0, 0) = 0.
Proof. unfold gyroid_expr. rewrite sin_0. ring. Qed.

Lemma diamond_expr_neg x y z :
  Spec.diamond_expr (- x) (- y) (- z) = - Spec.diamond_expr x y z.
Proof. unfold Spec.diamond_expr. rewrite !cos_neg, !sin_neg. ring. Qed.

(** What a successful [gyroid_function] call returns. *)
Lemma gyroid_function_ok lx ly lz tx ty tz por iso f :
  gyroid_function lx ly lz tx ty tz por iso = Ok f ->
  exists t,
    match iso with
    | None => Calib._gyroid_porosity_to_t_value por = Ok t
    | Some v => t = v
    end /\
    forall p, f p = gyroid_expr (row_matmul (scale_by_wavelength lx ly lz p)
                      (rotate_about_xyz (Q2R tx) (Q2R ty) (Q2R tz) true))
                    - Q2R t.
Proof.
  unfold gyroid_function. intro H.
  destruct iso as [v|].
  - destruct (negb (Qeq_bool por 0.5)); [discriminate|].
    cbn [bind] in H. injection H as <-. exists v. split; [reflexivity|].
    intro p. cbv beta zeta.
    destruct (row_matmul _ _) as [[x y] z]. reflexivity.
  - destruct (Calib._gyroid_porosity_to_t_value por) as [t|e] eqn:E;
      [|discriminate].
    cbn [bind] in H. injection H as <-. exists t. split; [reflexivity|].
    intro p. cbv beta zeta.
    destruct (row_matmul _ _) as [[x y] z]. reflexivity.
Qed.

(** What a successful [diamond_function] call returns. *)
Lemma diamond_function_ok lx ly lz por f :
  diamond_function lx ly lz por = Ok f ->
  exists t, Calib._diamond_porosity_to_t_value por = Ok t /\
    forall px py pz,
      f (px, py, pz) = Spec.diamond_expr (2 * PI / Q2R lx * px)
                         (2 * PI / Q2R ly * py) (2 * PI / Q2R lz * pz) - Q2R t.
Proof.
  unfold diamond_function. intro H.
  destruct (Calib._diamond_porosity_to_t_value por) as [t|e]; [|discriminate].
  cbn [bind] in H. injection H as <-. exists t. split; [reflexivity|].
  intros px py pz. reflexivity.
Qed.

(** The gyroid and diamond fields are point-symmetric about the origin,
    for every wavelength, angle and threshold: [f(-p) + f(p) = 2 f(0)]
    (with [f(0) = -t]). *)
Theorem fields_point_symmetric :
  (forall lx ly lz tx ty tz por iso f,
     gyroid_function lx ly lz tx ty tz por iso = Ok f ->
     forall p, f (neg3 p) + f p = 2 * f (0, 0, 0)) /\
  (forall lx ly lz por f,
     diamond_function lx ly lz por = Ok f ->
     forall p, f (neg3 p) + f p = 2 * f (0, 0, 0)).
Proof.
  split.
  - intros lx ly lz tx ty tz por iso f H p.
    destruct (gyroid_function_ok _ _ _ _ _ _ _ _ _ H) as (t & _ & Hf).
    rewrite !Hf, scale_neg, row_matmul_neg, gyroid_expr_neg, scale_zero,
      row_matmul_zero, gyroid_expr_zero.
    ring.
  - intros lx ly lz por f H [[x y] z].
    destruct (diamond_function_ok _ _ _ _ _ H) as (t & _ & Hf).
    unfold neg3. rewrite !Hf.
    rewrite !Ropp_mult_distr_r_reverse, diamond_expr_neg,
      !Rmult_0_r.
    unfold Spec.diamond_expr. rewrite sin_0. ring.
Qed.

Lemma fields_point_symmetric_witness :
  (exists f, gyroid_function 1%Q 1%Q 1%Q 0%Q 0%Q 0%Q 0.5%Q None = Ok f /\
     forall p, f (neg3 p) + f p = 2 * f (0, 0, 0)) /\
  (exists f, diamond_function 1%Q 1%Q 1%Q 0.5%Q = Ok f /\
     forall p, f (neg3 p) + f p = 2 * f (0, 0, 0)).
Proof.
  split; eexists; (split; [reflexivity |]).
  - apply (proj1 fields_point_symmetric 1%Q 1%Q 1%Q 0%Q 0%Q 0%Q 0.5%Q None). reflexivity.
  - apply (proj2 fields_point_symmetric 1%Q 1%Q 1%Q 0.5%Q). reflexivity.
Defined.

Lemma rotate_zero_angles :
  rotate_about_xyz (Q2R 0%Q) (Q2R 0%Q) (Q2R 0%Q) true = mat_id.
Proof.
  replace (Q2R 0%Q) with 0 by (unfold Q2R; simpl; field).
  unfold rotate_about_xyz, rotate_about_x, rotate_about_y, rotate_about_z,
    deg2rad.
  cbv beta iota zeta. rewrite Rmult_0_l, cos_0, sin_0.
  unfold matmul, mat_id; simpl. f_equal; ring.
Qed.

Lemma row_matmul_id p : row_matmul p mat_id = p.
Proof.
  destruct p as [[x y] z]. unfold row_matmul, mat_id; simpl.
  f_equal; [f_equal|]; ring.
Qed.

Lemma cos_shift_2PI u : cos (u + 2 * PI) = cos u.
Proof. rewrite cos_plus, cos_2PI, sin_2PI. ring. Qed.

Lemma sin_shift_2PI u : sin (u + 2 * PI) = sin u.
Proof. rewrite sin_plus, cos_2PI, sin_2PI. ring. Qed.

Lemma wave_shift l u : l <> 0 -> (u + l) * (2 * PI / l) = u * (2 * PI / l) + 2 * PI.
Proof. intro H. field. exact H. Qed.

Lemma wave_shift' l u : l <> 0 -> 2 * PI / l * (u + l) = 2 * PI / l * u + 2 * PI.
Proof. intro H. field. exact H. Qed.

(** With zero rotation angles the gyroid field repeats with period
    [lambda] along each axis, and the diamond field (which is never
    rotated) always does. *)
Theorem fields_periodic :
  (forall lx ly lz por iso f,
     Q2R lx <> 0 -> Q2R ly <> 0 -> Q2R lz <> 0 ->
     gyroid_function lx ly lz 0%Q 0%Q 0%Q por iso = Ok f ->
     forall x y z,
       f (x + Q2R lx, y, z) = f (x, y, z) /\
       f (x, y + Q2R ly, z) = f (x, y, z) /\
       f (x, y, z + Q2R lz) = f (x, y, z)) /\
  (forall lx ly lz por f,
     Q2R lx <> 0 -> Q2R ly <> 0 -> Q2R lz <> 0 ->
     diamond_function lx ly lz por = Ok f ->
     forall x y z,
       f (x + Q2R lx, y, z) = f (x, y, z) /\
       f (x, y + Q2R ly, z) = f (x, y, z) /\
       f (x, y, z + Q2R lz) = f (x, y, z)).
Proof.
  split.
  - intros lx ly lz por iso f Hx Hy Hz H x y z.
    destruct (gyroid_function_ok _ _ _ _ _ _ _ _ _ H) as (t & _ & Hf).
    rewrite !Hf, rotate_zero_angles, !row_matmul_id.
    unfold scale_by_wavelength, gyroid_expr.
    rewrite (wave_shift _ x Hx), (wave_shift _ y Hy), (wave_shift _ z Hz).
    rewrite !cos_shift_2PI, !sin_shift_2PI. auto.
  - intros lx ly lz por f Hx Hy Hz H x y z.
    destruct (diamond_function_ok _ _ _ _ _ H) as (t & _ & Hf).
    rewrite !Hf. unfold Spec.diamond_expr.
    rewrite (wave_shift' _ x Hx), (wave_shift' _ y Hy), (wave_shift' _ z Hz).
    rewrite !cos_shift_2PI, !sin_shift_2PI. auto.
Qed.

Lemma fields_periodic_witness :
  (exists f, gyroid_function 1%Q 1%Q 1%Q 0%Q 0%Q 0%Q 0.5%Q None = Ok f /\
     forall x y z,
       f (x + Q2R 1%Q, y, z) = f (x, y, z) /\
       f (x, y + Q2R 1%Q, z) = f (x, y, z) /\
       f (x, y, z + Q2R 1%Q) = f (x, y, z)) /\
  (exists f, diamond_function 1%Q 1%Q 1%Q 0.5%Q = Ok f /\
     forall x y z,
       f (x + Q2R 1%Q, y, z) = f (x, y, z) /\
       f (x, y + Q2R 1%Q, z) = f (x, y, z) /\
       f (x, y, z + Q2R 1%Q) = f (x, y, z)).
Proof.
  assert (H1 : Q2R 1%Q <> 0) by (unfold Q2R; simpl; lra).
  split; eexists; (split; [reflexivity |]).
  - apply (proj1 fields_periodic 1%Q 1%Q 1%Q 0.5%Q None); try exact H1. reflexivity.
  - apply (proj2 fields_periodic 1%Q 1%Q 1%Q 0.5%Q); try exact H1. reflexivity.
Defined.

End FieldShapeFacts.

Module TableFacts.

Import Calib Cert CertFacts.
Local Open Scope Q_scope.

Lemma interp_from_opp x x0 y0 rest :
  interp_from x x0 (- y0) (map neg_snd rest) == - interp_from x x0 y0 rest.
Proof.
  revert x0 y0. induction rest as [|[x1 y1] r IH]; intros x0 y0.
  - reflexivity.
  - cbn [map neg_snd fst snd interp_from].
    destruct (Qltb x x1).
    + unfold Qdiv. ring.
    + apply IH.
Qed.

Lemma sheet_table_increasing :
  match combine thickness_normalized isovalues with
  | [] => false
  | (x0, y0) :: rest => decreasing_table x0 (- y0) (map neg_snd rest)
  end = true.
Proof. vm_compute. reflexivity. Qed.

Lemma sheet_table_first :
  exists rest, combine thickness_normalized isovalues
               = (0.004, 1.000000e-04) :: rest.
Proof. eexists. reflexivity. Qed.

Lemma sheet_table_lengths : length thickness_normalized = length isovalues.
Proof. reflexivity. Qed.

(** The sheet-thickness table interpolation never fails, is at least the
    table's first isovalue [1e-4], and is non-decreasing. *)
Lemma sheet_interp_props :
  (forall x, exists v, np_interp x thickness_normalized isovalues = Ok v /\
     1.000000e-04 <= v) /\
  (forall x y vx vy, x <= y ->
     np_interp x thickness_normalized isovalues = Ok vx ->
     np_interp y thickness_normalized isovalues = Ok vy -> vx <= vy).
Proof.
  pose proof sheet_table_increasing as Hd.
  destruct sheet_table_first as [rest Ec].
  rewrite Ec in Hd.
  unfold np_interp. rewrite sheet_table_lengths, Nat.eqb_refl, Ec.
  cbn [negb]. split.
  - intro x. destruct (Qle_bool x 0.004) eqn:Ex.
    + eexists. split; [reflexivity | apply Qle_refl].
    + eexists. split; [reflexivity |].
      apply CalibFacts.Qle_bool_false in Ex. apply Qnot_le_lt in Ex.
      pose proof (interp_from_le_first x _ _ _ Hd (Qlt_le_weak _ _ Ex)) as H.
      rewrite interp_from_opp in H. Lqa.lra.
  - intros x y vx vy Hxy Hx Hy.
    destruct (Qle_bool x 0.004) eqn:Ex, (Qle_bool y 0.004) eqn:Ey;
      injection Hx as <-; injection Hy as <-.
    + apply Qle_refl.
    + apply CalibFacts.Qle_bool_false in Ey. apply Qnot_le_lt in Ey.
      pose proof (interp_from_le_first y _ _ _ Hd (Qlt_le_weak _ _ Ey)) as H.
      rewrite interp_from_opp in H. Lqa.lra.
    + apply Qle_bool_iff in Ey. apply CalibFacts.Qle_bool_false in Ex.
      exfalso. apply Ex. Lqa.lra.
    + apply CalibFacts.Qle_bool_false in Ex. apply Qnot_le_lt in Ex.
      pose proof (interp_from_nonincreasing x y _ _ _ Hd
                    (Qlt_le_weak _ _ Ex) Hxy) as H.
      rewrite !interp_from_opp in H. Lqa.lra.
Qed.

(** For a fixed positive wavelength, a thicker sheet never gets a smaller
    isovalue from [_sheet_thickness_to_t_value]. *)
Theorem sheet_thickness_calibration_monotone th1 th2 l t1 t2 :
  0 < l -> th1 <= th2 ->
  _sheet_thickness_to_t_value th1 l = Ok t1 ->
  _sheet_thickness_to_t_value th2 l = Ok t2 ->
  t1 <= t2.
Proof.
  intros Hl H12. unfold _sheet_thickness_to_t_value.
  destruct (_ || _); [discriminate|]. destruct (_ || _); [discriminate|].
  apply (proj2 sheet_interp_props).
  apply Qmult_le_r with l; [exact Hl|].
  unfold Qdiv. rewrite <- !Qmult_assoc, (Qmult_comm (/ l) l), Qmult_inv_r
    by (intro E; rewrite E in Hl; discriminate).
  rewrite !Qmult_1_r. exact H12.
Qed.

Lemma sheet_thickness_calibration_monotone_witness :
  exists t1 t2,
    (0 < 1 /\ 0.1 <= 0.5 /\
     _sheet_thickness_to_t_value 0.1 1 = Ok t1 /\
     _sheet_thickness_to_t_value 0.5 1 = Ok t2) /\ t1 <= t2.
Proof.
  do 2 eexists.
  assert (H : 0 < 1 /\ 0.1 <= 0.5 /\
     _sheet_thickness_to_t_value 0.1 1 = Ok (interp_from (0.1 / 1) 0.004 1.000000e-04
       (tl (combine thickness_normalized isovalues))) /\
     _sheet_thickness_to_t_value 0.5 1 = Ok (interp_from (0.5 / 1) 0.004 1.000000e-04
       (tl (combine thickness_normalized isovalues)))).
  { split; [reflexivity | split; [discriminate | split; reflexivity]]. }
  split; [exact H |].
  destruct H as (A & B & C & D).
  exact (sheet_thickness_calibration_monotone 0.1 0.5 1 _ _ A B C D).
Defined.

End TableFacts.

Module SheetFacts.

Import Euler Fields Linalg FieldShapeFacts.
Local Open Scope R_scope.

Lemma gyroid_function_none_in_range lx ly lz tx ty tz q :
  (0 <= q <= 1)%Q ->
  exists f, gyroid_function lx ly lz tx ty tz q None = Ok f.
Proof.
  intro H. destruct (CalibFacts.gyroid_porosity_range q) as [_ E].
  unfold gyroid_function. rewrite (E H). eexists. reflexivity.
Qed.

Lemma gyroid_function_none_out_of_range lx ly lz tx ty tz q :
  (q < 0 \/ 1 < q)%Q ->
  gyroid_function lx ly lz tx ty tz q None = Err ValueError.
Proof.
  intro H. destruct (CalibFacts.gyroid_porosity_range q) as [E _].
  unfold gyroid_function. rewrite (proj2 E H). reflexivity.
Qed.

(** The porosity path of [sheet_gyroid_function] is accepted exactly for
    porosities in [[0, 2]] (not [[0, 1]]): its two gyroids use porosities
    [1 - p/2] and [p/2], and [ValueError] is raised only outside [[0, 2]]. *)
Theorem sheet_gyroid_porosity_path_range lx ly lz tx ty tz por :
  match snd (sheet_gyroid_function lx ly lz tx ty tz (Some por) None None) with
  | Ok _ => (0 <= por <= 2)%Q
  | Err e => e = ValueError /\ (por < 0 \/ 2 < por)%Q
  end.
Proof.
  cbn [sheet_gyroid_function snd]. cbv zeta.
  assert (Ed : ((1 - por) / 2 == (1 - por) * (1 # 2))%Q) by reflexivity.
  destruct (Qlt_le_dec por 0) as [H0|H0].
  - rewrite (gyroid_function_none_out_of_range lx ly lz tx ty tz
               (0.5 + (1 - por) / 2)) by (right; Lqa.lra).
    cbn [bind]. auto.
  - destruct (Qlt_le_dec 2 por) as [H2|H2].
    + rewrite (gyroid_function_none_out_of_range lx ly lz tx ty tz
                 (0.5 + (1 - por) / 2)) by (left; Lqa.lra).
      cbn [bind]. auto.
    + destruct (gyroid_function_none_in_range lx ly lz tx ty tz
                  (0.5 + (1 - por) / 2) ltac:(split; Lqa.lra)) as [fi Ei].
      destruct (gyroid_function_none_in_range lx ly lz tx ty tz
                  (0.5 - (1 - por) / 2) ltac:(split; Lqa.lra)) as [fo Eo].
      rewrite Ei, Eo. cbn [bind]. split; assumption.
Qed.

(** For a porosity in [(1, 2]] the porosity path succeeds but its field is
    positive at every point: the sheet holds no material. *)
Theorem sheet_gyroid_porosity_above_one_empty lx ly lz tx ty tz por :
  (1 < por <= 2)%Q ->
  exists f,
    snd (sheet_gyroid_function lx ly lz tx ty tz (Some por) None None) = Ok f /\
    forall p, 0 < f p.
Proof.
  intros [H1 H2]. cbn [sheet_gyroid_function snd]. cbv zeta.
  assert (Ed : ((1 - por) / 2 == (1 - por) * (1 # 2))%Q) by reflexivity.
  set (qi := (0.5 + (1 - por) / 2)%Q).
  set (qo := (0.5 - (1 - por) / 2)%Q).
  destruct (gyroid_function_none_in_range lx ly lz tx ty tz qi
              ltac:(unfold qi; split; Lqa.lra)) as [fi Ei].
  destruct (gyroid_function_none_in_range lx ly lz tx ty tz qo
              ltac:(unfold qo; split; Lqa.lra)) as [fo Eo].
  rewrite Ei, Eo. cbn [bind]. eexists. split; [reflexivity|].
  destruct (gyroid_function_ok _ _ _ _ _ _ _ _ _ Ei) as (ti & Ti & Fi).
  destruct (gyroid_function_ok _ _ _ _ _ _ _ _ _ Eo) as (to & To & Fo).
  destruct (CalibFacts.gyroid_porosity_range qi) as [_ Ri].
  destruct (CalibFacts.gyroid_porosity_range qo) as [_ Ro].
  rewrite (Ri ltac:(unfold qi; split; Lqa.lra)) in Ti.
  rewrite (Ro ltac:(unfold qo; split; Lqa.lra)) in To.
  injection Ti as <-. injection To as <-.
  assert (Hlt : (Calib.np_polyval Calib.polynomial_constants qo
                 < Calib.np_polyval Calib.polynomial_constants qi)%Q).
  { rewrite !CertFacts.np_polyval_peval.
    apply (CertStrictFacts.gyroid_poly_decreasing_upto 50);
      [lia | unfold qi; Lqa.lra | unfold qi, qo; Lqa.lra |].
    assert (E : (Cert.seg_start 50 == 1)%Q) by reflexivity.
    unfold qo. Lqa.lra. }
  apply Qlt_Rlt in Hlt.
  intro p. unfold sdf_difference. rewrite Fi, Fo.
  set (G := gyroid_expr _).
  unfold Rmax. destruct (Rle_dec _ _); lra.
Qed.

Lemma sheet_gyroid_porosity_above_one_empty_witness :
  (1 < 1.5 <= 2)%Q /\
  exists f,
    snd (sheet_gyroid_function 1 1 1 0 0 0 (Some 1.5%Q) None None) = Ok f /\
    forall p, 0 < f p.
Proof.
  split; [split; [reflexivity | discriminate] |].
  apply (sheet_gyroid_porosity_above_one_empty 1 1 1 0 0 0 1.5).
  split; [reflexivity | discriminate].
Defined.

(** What the isovalue and thickness paths return. *)
Lemma sheet_gyroid_isovalue_shape lx ly lz tx ty tz por iso th f :
  (iso <> None \/ th <> None) ->
  snd (sheet_gyroid_function lx ly lz tx ty tz por iso th) = Ok f ->
  exists v fo fi,
    (0 < v)%Q /\
    gyroid_function lx ly lz tx ty tz 0.5 (Some (v / 2)%Q) = Ok fo /\
    gyroid_function lx ly lz tx ty tz 0.5 (Some (- (v / 2))%Q) = Ok fi /\
    f = sdf_difference fo fi.
Proof.
  intros Hn H.
  assert (K : forall v, snd (sheet_gyroid_function lx ly lz tx ty tz por iso th)
                        = (if Qle_bool v 0 then Err ValueError else
                           if porosity_not_default por then Err ValueError else
                           f_inner <- gyroid_function lx ly lz tx ty tz 0.5
                                        (Some (- (v / 2))%Q) ;;
                           f_outer <- gyroid_function lx ly lz tx ty tz 0.5
                                        (Some (v / 2)%Q) ;;
                           Ok (sdf_difference f_outer f_inner)) ->
              exists v fo fi,
                (0 < v)%Q /\
                gyroid_function lx ly lz tx ty tz 0.5 (Some (v / 2)%Q) = Ok fo /\
                gyroid_function lx ly lz tx ty tz 0.5 (Some (- (v / 2))%Q) = Ok fi /\
                f = sdf_difference fo fi).
  { intros v E. rewrite E in H. exists v.
    destruct (Qle_bool v 0) eqn:Ev; [discriminate|].
    destruct (porosity_not_default por); [discriminate|].
    apply CalibFacts.Qle_bool_false in Ev. apply Qnot_le_lt in Ev.
    destruct (gyroid_function lx ly lz tx ty tz 0.5 (Some (- (v / 2))%Q))
      as [fi|] eqn:Ei; [|discriminate].
    destruct (gyroid_function lx ly lz tx ty tz 0.5 (Some (v / 2)%Q))
      as [fo|] eqn:Eo; [|discriminate].
    cbn [bind] in H. injection H as <-.
    exists fo, fi. auto. }
  destruct iso as [v|], th as [t|].
  - cbn [sheet_gyroid_function snd bind] in H. discriminate.
  - apply (K v). reflexivity.
  - destruct (Calib._sheet_thickness_to_t_value t
                (mean3 lx ly lz)) as [v|e] eqn:Et.
    + apply (K v). cbn [sheet_gyroid_function snd]. rewrite Et. reflexivity.
    + cbn [sheet_gyroid_function snd] in H. rewrite Et in H. discriminate.
  - destruct Hn as [Hn|Hn]; contradiction.
Qed.

(** A sheet gyroid built from an isovalue or a sheet thickness is
    centrally symmetric: [f(-p) = f(p)] at every point. *)
Theorem sheet_gyroid_centrally_symmetric lx ly lz tx ty tz por iso th f :
  (iso <> None \/ th <> None) ->
  snd (sheet_gyroid_function lx ly lz tx ty tz por iso th) = Ok f ->
  forall p, f (neg3 p) = f p.
Proof.
  intros Hn H p.
  destruct (sheet_gyroid_isovalue_shape _ _ _ _ _ _ _ _ _ _ Hn H)
    as (v & fo & fi & _ & Eo & Ei & ->).
  destruct (gyroid_function_ok _ _ _ _ _ _ _ _ _ Eo) as (to & To & Fo).
  destruct (gyroid_function_ok _ _ _ _ _ _ _ _ _ Ei) as (ti & Ti & Fi).
  subst to ti. unfold sdf_difference. rewrite !Fo, !Fi.
  rewrite scale_neg, row_matmul_neg, gyroid_expr_neg.
  set (G := gyroid_expr _). rewrite Q2R_opp.
  rewrite Rmax_comm. f_equal; ring.
Qed.

Lemma sheet_gyroid_centrally_symmetric_witness :
  exists f,
    ((Some 0.5%Q <> None \/ @None Q <> None) /\
     snd (sheet_gyroid_function 1 1 1 0 0 0 (Some 0.5%Q) (Some 0.5%Q) None) = Ok f) /\
    forall p, f (neg3 p) = f p.
Proof.
  eexists. split; [split; [left; discriminate | reflexivity] |].
  apply (sheet_gyroid_centrally_symmetric 1 1 1 0 0 0 (Some 0.5%Q)
           (Some 0.5%Q) None); [left; discriminate | reflexivity].
Defined.

(** The thickness path, with the porosity left at its default, succeeds
    exactly when [0 < sheet_thickness / mean(lambda) < 0.88]: its isovalue
    is then at least [1e-4], so the [isovalue <= 0] check never fires. *)
Theorem sheet_gyroid_thickness_path lx ly lz tx ty tz th :
  let t_norm := (th / mean3 lx ly lz)%Q in
  (is_err (snd (sheet_gyroid_function lx ly lz tx ty tz (Some 0.5%Q) None
                  (Some th))) = false
   <-> (0 < t_norm < 0.88)%Q) /\
  (0 < t_norm < 0.88 ->
   exists v, Calib._sheet_thickness_to_t_value th (mean3 lx ly lz) = Ok v /\
     (1.000000e-04 <= v)%Q)%Q.
Proof.
  intro t_norm.
  assert (Hc : (0 < t_norm < 0.88)%Q <->
               (Qle_bool t_norm 0 || Qle_bool 0.88 t_norm)%bool = false).
  { rewrite orb_false_iff, !CalibFacts.Qle_bool_false. split.
    - intros [A B]. split; intro C; Lqa.lra.
    - intros [A B]. split; apply Qnot_le_lt; assumption. }
  assert (Hv : (0 < t_norm < 0.88)%Q ->
               exists v, Calib._sheet_thickness_to_t_value th (mean3 lx ly lz)
                         = Ok v /\ (1.000000e-04 <= v)%Q).
  { intro H. apply Hc in H. unfold Calib._sheet_thickness_to_t_value.
    fold t_norm. rewrite H. apply (proj1 TableFacts.sheet_interp_props). }
  split; [|exact Hv].
  cbn [sheet_gyroid_function snd].
  split.
  - intro H. apply Hc.
    unfold Calib._sheet_thickness_to_t_value in H. fold t_norm in H.
    destruct (_ || _)%bool; [|reflexivity].
    cbn [bind is_err] in H. discriminate H.
  - intro H. destruct (Hv H) as (v & E & Hge). rewrite E. cbn [bind].
    assert (Ev : Qle_bool v 0 = false).
    { apply CalibFacts.Qle_bool_false. intro C.
      pose proof (Qlt_le_trans 0 1.000000e-04 v ltac:(reflexivity) Hge) as P.
      exact (Qlt_not_le _ _ P C). }
    rewrite Ev. reflexivity.
Qed.

Lemma sheet_gyroid_thickness_path_witness :
  (0 < 0.5 / mean3 1 1 1 < 0.88)%Q /\
  exists v, Calib._sheet_thickness_to_t_value 0.5 (mean3 1 1 1) = Ok v /\
    (1.000000e-04 <= v)%Q.
Proof.
  assert (H : (0 < 0.5 / mean3 1 1 1 < 0.88)%Q)
    by (split; reflexivity).
  split; [exact H |].
  exact (proj2 (sheet_gyroid_thickness_path 1 1 1 0 0 0 0.5) H).
Defined.

End SheetFacts.

Module DiamondTableFacts.

Import Calib Cert CertFacts.
Local Open Scope Q_scope.

Lemma last_default_irrel {A} (b : A) l d d' : last (b :: l) d = last (b :: l) d'.
Proof.
  revert b. induction l as [|c l IH]; intro b; [reflexivity|].
  change (last (c :: l) d = last (c :: l) d'). apply IH.
Qed.

(** Right of every knot, the interpolant is the table's last value. *)
Lemma interp_from_beyond x c x0 y0 rest :
  forallb (fun ab => Qle_bool (fst ab) c) rest = true -> c <= x ->
  interp_from x x0 y0 rest = last (map snd rest) y0.
Proof.
  revert x0 y0. induction rest as [|[x1 y1] r IH]; intros x0 y0 Hk Hc.
  - reflexivity.
  - cbn [forallb fst] in Hk. apply andb_true_iff in Hk as [H1 Hk].
    apply Qle_bool_iff in H1.
    cbn [interp_from].
    assert (E : Qltb x x1 = false)
      by (apply CalibFacts.Qltb_false; Lqa.lra).
    rewrite E, (IH x1 y1 Hk Hc).
    destruct r as [|[x2 y2] r']; [reflexivity|].
    cbn [map snd]. change (last (y2 :: map snd r') y1
                           = last (y2 :: map snd r') y0).
    apply last_default_irrel.
Qed.

Lemma diamond_knots_le_1 :
  match combine POROSITY DIAMOND_T_VALUE with
  | [] => False
  | (x0, y0) :: rest =>
      x0 = 0.0 /\ y0 = 1.41421356 /\
      forallb (fun ab => Qle_bool (fst ab) 1) rest = true /\
      last (map snd rest) y0 = -1.41421356
  end.
Proof. vm_compute. auto. Qed.

(** The diamond calibration accepts every porosity and clamps: it is
    [fp[0] = 1.41421356] for porosity [<= 0], [fp[-1] = -1.41421356] for
    porosity [>= 1], and always lies between the two. *)
Theorem diamond_calibration_clamped p :
  exists t, _diamond_porosity_to_t_value p = Ok t /\
    -1.41421356 <= t <= 1.41421356 /\
    (p <= 0 -> t = 1.41421356) /\
    (1 <= p -> t = -1.41421356).
Proof.
  pose proof diamond_table_decreasing_true as Hd.
  pose proof diamond_knots_le_1 as Hk.
  destruct (combine POROSITY DIAMOND_T_VALUE) as [|[x0 y0] rest] eqn:Ec;
    [contradiction|].
  destruct Hk as (-> & -> & Hk & Hl).
  unfold _diamond_porosity_to_t_value, np_interp.
  rewrite diamond_table_lengths, Nat.eqb_refl, Ec. cbn [negb].
  destruct (Qle_bool p 0.0) eqn:Ep.
  - eexists. split; [reflexivity|].
    apply Qle_bool_iff in Ep.
    split; [split; discriminate |].
    split; [reflexivity | intro H1; exfalso; Lqa.lra].
  - apply CalibFacts.Qle_bool_false in Ep. apply Qnot_le_lt in Ep.
    eexists. split; [reflexivity|].
    assert (Up : interp_from p 0.0 1.41421356 rest <= 1.41421356)
      by (apply interp_from_le_first; [exact Hd | Lqa.lra]).
    destruct (Qlt_le_dec p 1) as [Hp1|Hp1].
    + assert (Lo : -1.41421356 <= interp_from p 0.0 1.41421356 rest).
      { rewrite <- Hl, <- (interp_from_beyond 1 1 0.0 1.41421356 rest Hk
                            (Qle_refl 1)).
        apply interp_from_nonincreasing; [exact Hd | Lqa.lra | Lqa.lra]. }
      split; [split; assumption |].
      split; intro H; exfalso; Lqa.lra.
    + rewrite (interp_from_beyond p 1 0.0 1.41421356 rest Hk Hp1), Hl.
      split; [split; discriminate |].
      split; [intro H; exfalso; Lqa.lra | reflexivity].
Qed.

End DiamondTableFacts.

Module BoxFieldFacts.

Import Euler Fields Boxes.
Local Open Scope R_scope.

Lemma intersection_box_nonpos size infill px py pz :
  let '(sx, sy, sz) := size in
  sdf_intersection (sdf_box size) infill (px, py, pz) <= 0 <->
  Rabs px <= sx / 2 /\ Rabs py <= sy / 2 /\ Rabs pz <= sz / 2 /\
  infill (px, py, pz) <= 0.
Proof.
  destruct size as [[sx sy] sz]. unfold sdf_intersection.
  pose proof (BoxFacts.sdf_box_nonpos sx sy sz px py pz) as B.
  pose proof (Rmax_l (sdf_box (sx, sy, sz) (px, py, pz)) (infill (px, py, pz))).
  pose proof (Rmax_r (sdf_box (sx, sy, sz) (px, py, pz)) (infill (px, py, pz))).
  split.
  - intro Hle. destruct B as [B _].
    destruct (B ltac:(lra)) as (? & ? & ?). repeat split; auto; lra.
  - intros (H1 & H2 & H3 & H4). apply Rmax_lub; [apply B; auto | exact H4].
Qed.

(** A field built by [gyroid_box] or [sheet_gyroid_box] holds material
    ([f p <= 0]) exactly at the points inside the centred box of extents
    [(lambda_x * n_x, lambda_y * n_y, lambda_z * n_z)] where the infill
    field holds material. *)
Theorem box_fields_confined :
  (forall lx ly lz tx ty tz por n f,
     gyroid_box lx ly lz tx ty tz por n = Ok f ->
     exists sx sy sz infill,
       box_extents lx ly lz n = Ok (sx, sy, sz) /\
       gyroid_function lx ly lz tx ty tz por None = Ok infill /\
       forall px py pz,
         f (px, py, pz) <= 0 <->
         Rabs px <= sx / 2 /\ Rabs py <= sy / 2 /\ Rabs pz <= sz / 2 /\
         infill (px, py, pz) <= 0) /\
  (forall lx ly lz tx ty tz por n f,
     sheet_gyroid_box lx ly lz tx ty tz por n = Ok f ->
     exists sx sy sz infill,
       box_extents lx ly lz n = Ok (sx, sy, sz) /\
       snd (sheet_gyroid_function lx ly lz tx ty tz (Some por) None None)
         = Ok infill /\
       forall px py pz,
         f (px, py, pz) <= 0 <->
         Rabs px <= sx / 2 /\ Rabs py <= sy / 2 /\ Rabs pz <= sz / 2 /\
         infill (px, py, pz) <= 0).
Proof.
  split.
  - intros lx ly lz tx ty tz por n f H. unfold gyroid_box in H.
    destruct (box_extents lx ly lz n) as [[[sx sy] sz]|e]; [|discriminate].
    cbn [bind] in H.
    destruct (bind_kwargs _ _ _); [|discriminate]. cbn [bind] in H.
    destruct (gyroid_function lx ly lz tx ty tz por None) as [infill|e];
      [|discriminate].
    cbn [bind] in H. injection H as <-.
    exists sx, sy, sz, infill. split; [reflexivity | split; [reflexivity|]].
    intros px py pz. exact (intersection_box_nonpos (sx, sy, sz) infill px py pz).
  - intros lx ly lz tx ty tz por n f H. unfold sheet_gyroid_box in H.
    destruct (box_extents lx ly lz n) as [[[sx sy] sz]|e]; [|discriminate].
    cbn [bind] in H.
    destruct (bind_kwargs _ _ _); [|discriminate]. cbn [bind] in H.
    destruct (snd (sheet_gyroid_function lx ly lz tx ty tz (Some por) None None))
      as [infill|e]; [|discriminate].
    cbn [bind] in H. injection H as <-.
    exists sx, sy, sz, infill. split; [reflexivity | split; [reflexivity|]].
    intros px py pz. exact (intersection_box_nonpos (sx, sy, sz) infill px py pz).
Qed.

Lemma box_fields_confined_witness :
  (exists f, gyroid_box 1%Q 1%Q 1%Q 0%Q 0%Q 0%Q 0.5%Q (NInt 4) = Ok f /\
     exists sx sy sz infill,
       box_extents 1%Q 1%Q 1%Q (NInt 4) = Ok (sx, sy, sz) /\
       gyroid_function 1%Q 1%Q 1%Q 0%Q 0%Q 0%Q 0.5%Q None = Ok infill /\
       forall px py pz,
         f (px, py, pz) <= 0 <->
         Rabs px <= sx / 2 /\ Rabs py <= sy / 2 /\ Rabs pz <= sz / 2 /\
         infill (px, py, pz) <= 0) /\
  (exists f, sheet_gyroid_box 1%Q 1%Q 1%Q 0%Q 0%Q 0%Q 0.5%Q (NInt 4) = Ok f /\
     exists sx sy sz infill,
       box_extents 1%Q 1%Q 1%Q (NInt 4) = Ok (sx, sy, sz) /\
       snd (sheet_gyroid_function 1%Q 1%Q 1%Q 0%Q 0%Q 0%Q (Some 0.5%Q) None None)
         = Ok infill /\
       forall px py pz,
         f (px, py, pz) <= 0 <->
         Rabs px <= sx / 2 /\ Rabs py <= sy / 2 /\ Rabs pz <= sz / 2 /\
         infill (px, py, pz) <= 0).
Proof.
  split; eexists; (split; [reflexivity|]).
  - apply (proj1 box_fields_confined 1%Q 1%Q 1%Q 0%Q 0%Q 0%Q 0.5%Q (NInt 4)). reflexivity.
  - apply (proj2 box_fields_confined 1%Q 1%Q 1%Q 0%Q 0%Q 0%Q 0.5%Q (NInt 4)). reflexivity.
Defined.

End BoxFieldFacts.

Module CliFacts.

Import Fields Boxes Cli.
Import String.
Local Open Scope string_scope.
Local Open Scope Q_scope.

Lemma check_lambda_spec v :
  check_lambda v = Ok tt /\ 0 <= v \/ check_lambda v = Err ValueError /\ v < 0.
Proof.
  unfold check_lambda. destruct (Calib.Qltb v 0) eqn:E.
  - right. split; [reflexivity | apply CalibFacts.Qltb_iff; exact E].
  - left. split; [reflexivity | apply CalibFacts.Qltb_false; exact E].
Qed.

Lemma check_range_spec lo hi v :
  (if Calib.Qltb v lo || Calib.Qltb hi v then @Err unit ValueError else Ok tt)
    = Ok tt /\ lo <= v <= hi \/
  (if Calib.Qltb v lo || Calib.Qltb hi v then @Err unit ValueError else Ok tt)
    = Err ValueError /\ (v < lo \/ hi < v).
Proof.
  destruct (Calib.Qltb v lo) eqn:E1; [|destruct (Calib.Qltb hi v) eqn:E2].
  - right. split; [reflexivity | left; apply CalibFacts.Qltb_iff; exact E1].
  - right. split; [reflexivity | right; apply CalibFacts.Qltb_iff; exact E2].
  - left. split; [reflexivity|].
    split; apply CalibFacts.Qltb_false; assumption.
Qed.

Lemma check_theta_spec v :
  check_theta v = Ok tt /\ 0 <= v <= 90 \/
  check_theta v = Err ValueError /\ (v < 0 \/ 90 < v).
Proof. exact (check_range_spec 0 90 v). Qed.

Lemma check_porosity_spec v :
  check_porosity v = Ok tt /\ 0 <= v <= 1 \/
  check_porosity v = Err ValueError /\ (v < 0 \/ 1 < v).
Proof. exact (check_range_spec 0 1 v). Qed.

Lemma cli_num_periods_three a n :
  cli_num_periods a = Ok n -> exists x y z, n = [x; y; z].
Proof.
  unfold cli_num_periods.
  destruct (num_x_periods a) as [x|], (num_y_periods a) as [y|],
    (num_z_periods a) as [z|];
    cbn [existsb forallb truthy orb andb negb];
    repeat match goal with
           | |- context [if ?b then _ else _] => destruct b
           end;
    intro H; try discriminate; injection H as <-; eauto.
Qed.

Lemma box_extents_triple lx ly lz x y z :
  box_extents lx ly lz (NTuple [x; y; z])
  = Ok (Q2R (lx * x), Q2R (ly * y), Q2R (lz * z)).
Proof. reflexivity. Qed.

Lemma gyroid_kwargs_ok :
  bind_kwargs gyroid_function_params required_lambdas box_kwargs = Ok tt.
Proof. vm_compute. reflexivity. Qed.

Lemma sheet_kwargs_ok :
  bind_kwargs sheet_gyroid_function_params required_lambdas box_kwargs = Ok tt.
Proof. vm_compute. reflexivity. Qed.

Lemma select_gyroid : select_tpms "gyroid" = Ok gyroid_box.
Proof. reflexivity. Qed.

Lemma select_sheet : select_tpms "sheet_gyroid" = Ok sheet_gyroid_box.
Proof. reflexivity. Qed.

Lemma select_diamond : select_tpms "diamond" = Ok diamond_box.
Proof. reflexivity. Qed.

Lemma gyroid_box_triple_ok lx ly lz tx ty tz por x y z :
  0 <= por <= 1 ->
  is_err (gyroid_box lx ly lz tx ty tz por (NTuple [x; y; z])) = false /\
  is_err (sheet_gyroid_box lx ly lz tx ty tz por (NTuple [x; y; z])) = false.
Proof.
  intro Hp. split.
  - unfold gyroid_box. rewrite box_extents_triple. cbn [bind].
    rewrite gyroid_kwargs_ok. cbn [bind].
    destruct (SheetFacts.gyroid_function_none_in_range lx ly lz tx ty tz por Hp)
      as [f E].
    rewrite E. reflexivity.
  - unfold sheet_gyroid_box. rewrite box_extents_triple. cbn [bind].
    rewrite sheet_kwargs_ok. cbn [bind].
    cbn [sheet_gyroid_function snd]. cbv zeta.
    assert (Ed : (1 - por) / 2 == (1 - por) * (1 # 2)) by reflexivity.
    destruct (SheetFacts.gyroid_function_none_in_range lx ly lz tx ty tz
                (0.5 + (1 - por) / 2) ltac:(split; Lqa.lra)) as [fi Ei].
    destruct (SheetFacts.gyroid_function_none_in_range lx ly lz tx ty tz
                (0.5 - (1 - por) / 2) ltac:(split; Lqa.lra)) as [fo Eo].
    rewrite Ei, Eo. reflexivity.
Qed.

Ltac cli_bad :=
  cbn [bind is_err]; split; [discriminate |];
  let Hc := fresh "Hc" in
  intro Hc; decompose [and] Hc;
  repeat match goal with H : _ \/ _ |- _ => destruct H end;
  exfalso; Lqa.lra.

(** With [tpms] set to [gyroid] or [sheet_gyroid], the script's checks
    are exactly what the box function needs: [main] builds a field iff
    every wavelength is [>= 0], every angle is in [[0, 90]], the porosity
    is in [[0, 1]] and the period options are consistent. *)
Theorem cli_gyroid_builds_iff a :
  tpms a = "gyroid" \/ tpms a = "sheet_gyroid" ->
  (is_err (cli_main a) = false <->
   (0 <= lambda_x a /\ 0 <= lambda_y a /\ 0 <= lambda_z a /\
    0 <= theta_x a <= 90 /\ 0 <= theta_y a <= 90 /\ 0 <= theta_z a <= 90 /\
    0 <= porosity a <= 1 /\ is_err (cli_num_periods a) = false)).
Proof.
  intro Ht. unfold cli_main.
  assert (Hs : select_tpms (tpms a) = Ok gyroid_box \/
               select_tpms (tpms a) = Ok sheet_gyroid_box)
    by (destruct Ht as [-> | ->]; [left | right]; reflexivity).
  destruct (check_lambda_spec (lambda_x a)) as [[E1 P1]|[E1 P1]];
  destruct (check_lambda_spec (lambda_y a)) as [[E2 P2]|[E2 P2]];
  destruct (check_lambda_spec (lambda_z a)) as [[E3 P3]|[E3 P3]];
  destruct (check_theta_spec (theta_x a)) as [[E4 P4]|[E4 P4]];
  destruct (check_theta_spec (theta_y a)) as [[E5 P5]|[E5 P5]];
  destruct (check_theta_spec (theta_z a)) as [[E6 P6]|[E6 P6]];
  destruct (check_porosity_spec (porosity a)) as [[E7 P7]|[E7 P7]];
  destruct Hs as [Hs|Hs]; rewrite Hs; cbn [bind];
  rewrite ?E1, ?E2, ?E3, ?E4, ?E5, ?E6, ?E7; cbn [bind];
  try cli_bad.
  - destruct (cli_num_periods a) as [n|e] eqn:En; cbn [bind is_err].
    + destruct (cli_num_periods_three a n En) as (x & y & z & ->).
      split; [intros _; repeat split; tauto |].
      intros _. apply (gyroid_box_triple_ok _ _ _ _ _ _ _ _ _ _ P7).
    + split; [discriminate | intros Hc; decompose [and] Hc; discriminate].
  - destruct (cli_num_periods a) as [n|e] eqn:En; cbn [bind is_err].
    + destruct (cli_num_periods_three a n En) as (x & y & z & ->).
      split; [intros _; repeat split; tauto |].
      intros _. apply (gyroid_box_triple_ok _ _ _ _ _ _ _ _ _ _ P7).
    + split; [discriminate | intros Hc; decompose [and] Hc; discriminate].
Qed.

Lemma diamond_box_any_err lx ly lz tx ty tz por n :
  is_err (diamond_box lx ly lz tx ty tz por (NTuple (map inject_Z n))) = true.
Proof. destruct n as [|x [|y [|z [|w n]]]]; reflexivity. Qed.

(** With [tpms] set to [diamond], [main] never gets a field: either one of
    its own checks raises, or [diamond_box] does. *)
Theorem cli_diamond_never_builds a :
  tpms a = "diamond" -> is_err (cli_main a) = true.
Proof.
  intro Ht. unfold cli_main. rewrite Ht, select_diamond. cbn [bind].
  destruct (check_lambda_spec (lambda_x a)) as [[E1 _]|[E1 _]];
  destruct (check_lambda_spec (lambda_y a)) as [[E2 _]|[E2 _]];
  destruct (check_lambda_spec (lambda_z a)) as [[E3 _]|[E3 _]];
  destruct (check_theta_spec (theta_x a)) as [[E4 _]|[E4 _]];
  destruct (check_theta_spec (theta_y a)) as [[E5 _]|[E5 _]];
  destruct (check_theta_spec (theta_z a)) as [[E6 _]|[E6 _]];
  destruct (check_porosity_spec (porosity a)) as [[E7 _]|[E7 _]];
  rewrite ?E1, ?E2, ?E3, ?E4, ?E5, ?E6, ?E7; cbn [bind is_err];
  try reflexivity.
  destruct (cli_num_periods a) as [n|e]; cbn [bind is_err];
    [apply diamond_box_any_err | reflexivity].
Qed.

(** The period options follow Python truthiness: when none of
    [--num_x_periods] etc. is truthy ([None] or [0]) the shared
    [num_periods] is used on every axis; when all three are nonzero they
    are used iff [num_periods] is [4] (its default), else [ValueError];
    when some but not all are truthy (an explicit [0] counts as absent)
    it is [ValueError]; and the unreachable [TypeError] branch is never
    taken. *)
Theorem cli_num_periods_truthiness a :
  let ns := [num_x_periods a; num_y_periods a; num_z_periods a] in
  ((forall o, In o ns -> truthy o = false) ->
     cli_num_periods a = Ok [num_periods a; num_periods a; num_periods a]) /\
  (forall x y z, num_x_periods a = Some x -> num_y_periods a = Some y ->
     num_z_periods a = Some z -> x <> 0%Z -> y <> 0%Z -> z <> 0%Z ->
     cli_num_periods a =
       if Z.eqb (num_periods a) 4 then Ok [x; y; z] else Err ValueError) /\
  ((exists o, In o ns /\ truthy o = true) ->
   (exists o, In o ns /\ truthy o = false) ->
     cli_num_periods a = Err ValueError) /\
  cli_num_periods a <> Err TypeError.
Proof.
  cbn zeta. unfold cli_num_periods. cbv zeta.
  split; [| split; [| split]].
  - intro Hf.
    destruct (existsb truthy _) eqn:E; [| reflexivity].
    apply existsb_exists in E. destruct E as [o [Ho Ht]].
    rewrite (Hf o Ho) in Ht. discriminate.
  - intros x y z Hx Hy Hz Hx0 Hy0 Hz0. rewrite Hx, Hy, Hz.
    apply Z.eqb_neq in Hx0, Hy0, Hz0.
    cbn [existsb forallb truthy]. rewrite Hx0, Hy0, Hz0. cbn [negb orb andb].
    destruct (Z.eqb (num_periods a) 4); reflexivity.
  - intros [o [Ho Ht]] [o' [Ho' Hf]].
    destruct (existsb truthy _) eqn:E.
    + destruct (forallb truthy _) eqn:F; [| reflexivity].
      rewrite forallb_forall in F. rewrite (F o' Ho') in Hf. discriminate.
    + assert (E' : existsb truthy
                     [num_x_periods a; num_y_periods a; num_z_periods a] = true)
        by (apply existsb_exists; exists o; split; assumption).
      rewrite E' in E. discriminate.
  - destruct (num_x_periods a) as [x|], (num_y_periods a) as [y|],
      (num_z_periods a) as [z|]; cbn [truthy existsb forallb];
      repeat match goal with
             | |- context [Z.eqb ?k 0] => destruct (Z.eqb k 0)
             end;
      destruct (Z.eqb (num_periods a) 4); cbn; intro Hc; discriminate Hc.
Qed.

Lemma cli_gyroid_builds_iff_witness :
  is_err (cli_main (CliArgs "out.stl" "sheet_gyroid" 10 10 10 0 45 90 0.5 0.2
                      4 (Some 2%Z) (Some 3%Z) (Some 1%Z))) = false.
Proof.
  apply (proj2 (cli_gyroid_builds_iff
                  (CliArgs "out.stl" "sheet_gyroid" 10 10 10 0 45 90 0.5 0.2
                     4 (Some 2%Z) (Some 3%Z) (Some 1%Z))
                  (or_intror eq_refl))).
  cbn [lambda_x lambda_y lambda_z theta_x theta_y theta_z porosity].
  repeat split; try reflexivity; apply Qle_bool_imp_le; reflexivity.
Defined.

Lemma cli_diamond_never_builds_witness :
  is_err (cli_main (CliArgs "out.stl" "diamond" 10 10 10 0 0 0 0.5 0.2
                      4 None None None)) = true.
Proof.
  apply (cli_diamond_never_builds
           (CliArgs "out.stl" "diamond" 10 10 10 0 0 0 0.5 0.2
              4 None None None)).
  reflexivity.
Defined.

Lemma cli_num_periods_truthiness_witness :
  cli_num_periods (CliArgs "out.stl" "gyroid" 10 10 10 0 0 0 0.5 0.2
                     4 (Some 3%Z) (Some 0%Z) (Some 2%Z)) = Err ValueError /\
  cli_num_periods (CliArgs "out.stl" "gyroid" 10 10 10 0 0 0 0.5 0.2
                     6 (Some 0%Z) None (Some 0%Z)) = Ok [6%Z; 6%Z; 6%Z].
Proof.
  split.
  - apply (proj1 (proj2 (proj2 (cli_num_periods_truthiness
             (CliArgs "out.stl" "gyroid" 10 10 10 0 0 0 0.5 0.2
                4 (Some 3%Z) (Some 0%Z) (Some 2%Z)))))).
    + exists (Some 3%Z). split; [left; reflexivity | reflexivity].
    + exists (Some 0%Z). split; [right; left; reflexivity | reflexivity].
  - apply (proj1 (cli_num_periods_truthiness
             (CliArgs "out.stl" "gyroid" 10 10 10 0 0 0 0.5 0.2
                6 (Some 0%Z) None (Some 0%Z)))).
    intros o Ho. cbn in Ho.
    destruct Ho as [<- | [<- | [<- | []]]]; reflexivity.
Defined.

End CliFacts.
